(** * Tracking metrics of the VQ2D benchmark

    A shallow embedding of [VQ2D/vq2d/metrics/tracking_metrics.py]: the
    aggregator [compute_tracking_metrics] and the facade [TrackingMetrics].

    Conventions of the embedding.
    - Python floats (scores, IoU values, thresholds, the numpy arrays of
      counts) are exact rationals [Q]; NaN and rounding are not modelled.
    - A pandas data frame is the list of its rows, in row order, with the
      default range index: the label of a row is its position.
    - Exceptions that can leave a function are values of [exn]; a function
      that may raise returns a [result].
    - The numpy arrays are lists (rows by threshold index, columns by
      prediction index).  Every subscript into them comes from [enumerate]
      over the sequence that fixed the array's size, or from the index list
      of a group of the same frame, so it is in range; reads and writes of
      array cells are therefore total.  The subscripts [[0]] applied to what
      the two overlap functions return depend on code outside this file and
      raise [IndexError] on an empty sequence.
    - [ndarray.argsort()] is called with numpy's default kind, which is not
      stable: it returns the indices in ascending order of the values and
      promises no order among equal values (the order differs between
      numpy builds and array sizes).  It is a parameter of the embedding,
      with exactly that contract ([Argsort]); the theorems hold for
      whatever order it gives to equal scores, and the concrete instances
      run the insertion sort. *)

From Stdlib Require Import ZArith QArith Lia Lqa String.
From stdpp Require Import base list sorting.

(** ** Exceptions *)

Inductive exn : Type :=
| KeyError (key : Z)
| IndexError.

Definition result (A : Type) : Type := (exn + A)%type.
Definition Ok {A} (a : A) : result A := inr a.
Definition Raise {A} (e : exn) : result A := inl e.

Definition bind {A B} (m : result A) (k : A → result B) : result B :=
  match m with
  | inl e => inl e
  | inr a => k a
  end.

Notation "x <-- m ;; k" := (bind m (λ x, k))
  (at level 100, m at next level, right associativity).

Fixpoint foldM {A S} (f : S → A → result S) (s : S) (l : list A) : result S :=
  match l with
  | [] => Ok s
  | x :: l' => s' <-- f s x ;; foldM f s' l'
  end.

Fixpoint mapR {A B} (f : A → result B) (l : list A) : result (list B) :=
  match l with
  | [] => Ok []
  | x :: l' => y <-- f x ;; ys <-- mapR f l' ;; Ok (y :: ys)
  end.

(** [seq[0]] *)
Definition first {A} (l : list A) : result A :=
  match l with
  | [] => Raise IndexError
  | x :: _ => Ok x
  end.

(** ** numpy *)

Definition Qltb (x y : Q) : bool := negb (Qle_bool y x).

(** [enumerate(l)], counting from [i]. *)
Fixpoint enumerate_from {A} (i : nat) (l : list A) : list (nat * A) :=
  match l with
  | [] => []
  | x :: l' => (i, x) :: enumerate_from (S i) l'
  end.
Abbreviation enumerate := (enumerate_from 0).

(** [a.sum()] *)
Definition np_sum (a : list Q) : Q := foldr Qplus 0%Q a.

(** [np.count_nonzero(mask)] *)
Definition count_nonzero (mask : list bool) : nat :=
  length (filter (λ b, b = true) mask).

(** [a[mask]], boolean indexing. *)
Fixpoint bool_index (a : list Q) (mask : list bool) : list Q :=
  match a, mask with
  | x :: a', b :: mask' =>
      if b then x :: bool_index a' mask' else bool_index a' mask'
  | _, _ => []
  end.

(** [a.argmax()]: the first position that holds the maximum. *)
Fixpoint argmax_from (best : Q) (best_i i : nat) (a : list Q) : nat :=
  match a with
  | [] => best_i
  | x :: a' =>
      if Qltb best x then argmax_from x i (S i) a'
      else argmax_from best best_i (S i) a'
  end.

Definition argmax (a : list Q) : nat :=
  match a with
  | [] => 0
  | x :: a' => argmax_from x 0 1 a'
  end.

(** The order of an ascending sort. *)
Definition ascending {A} (key : A → Q) : list A → Prop :=
  StronglySorted (λ x y, (key x <= key y)%Q).

(** [a.argsort()], numpy's default kind: some permutation of the indices
    of [a] along which the values ascend.  Which permutation, when values
    are equal, is left to the sort. *)
Class Argsort := {
  argsort : list Q → list nat;
  argsort_Permutation (a : list Q) : argsort a ≡ₚ seq 0 (length a);
  argsort_ascending (a : list Q) : ascending (λ i, nth i a 0%Q) (argsort a);
}.

(** Sorts within that contract, for the concrete instances.  Insertion
    of [x] in front of the first element whose key is not smaller: among
    equal keys the earlier element stays first. *)
Fixpoint ins {A} (key : A → Q) (x : A) (l : list A) : list A :=
  match l with
  | [] => [x]
  | y :: l' => if Qle_bool (key x) (key y) then x :: y :: l'
               else y :: ins key x l'
  end.

Definition isort {A} (key : A → Q) (l : list A) : list A :=
  foldr (ins key) [] l.

(** The insertion sort of the indices (what numpy's introsort does on an
    array of at most 16 elements, where no vectorised sort replaces it):
    equal values stay in index order. *)
Definition insertion_argsort (a : list Q) : list nat :=
  isort (λ i, nth i a 0%Q) (seq 0 (length a)).

(** A sort that leaves equal values in descending index order. *)
Definition reversing_argsort (a : list Q) : list nat :=
  reverse (isort (λ i, (- nth i a 0)%Q) (seq 0 (length a))).

(** A sort whose order of equal values depends on the size of the array:
    the first of the two on an even number of values, the second on an odd
    number. *)
Definition alternating_argsort (a : list Q) : list nat :=
  if Nat.even (length a) then insertion_argsort a else reversing_argsort a.

(** [i] is the first position of [a] that holds its maximum. *)
Definition first_max (a : list Q) (i : nat) : Prop :=
  ∃ x, a !! i = Some x ∧ Forall (λ y, (y <= x)%Q) a
       ∧ Forall (λ y, (y < x)%Q) (take i a).

(** [np.linspace(start, stop, num)] for [num] at least 2. *)
Definition linspace (start stop : Q) (num : nat) : list Q :=
  (λ i : nat, start + inject_Z (Z.of_nat i) * ((stop - start) / inject_Z (Z.of_nat (num - 1))))%Q
    <$> seq 0 num.

(** A two-dimensional array as the list of its rows. *)
Abbreviation matrix := (list (list Q)).

(** [np.zeros((rows, cols))] *)
Definition zeros2 (rows cols : nat) : matrix := replicate rows (replicate cols 0%Q).

(** [m[r, c]] *)
Definition get2 (m : matrix) (r c : nat) : Q := nth c (nth r m []) 0%Q.

(** [m[r, c] = v] *)
Definition set2 (r c : nat) (v : Q) (m : matrix) : matrix :=
  alter (λ row, <[c := v]> row) r m.

(** [lists[r].append(v)] *)
Definition append_at (r : nat) (v : Q) (lists : list (list Q)) : list (list Q) :=
  alter (λ l, l ++ [v]) r lists.

(** ** pandas *)

(** [df.groupby(key).get_group(name)]: the rows whose key is [name], in
    row order, each with its index label; [KeyError] when there is none. *)
Definition get_group {A} (key : A → Z) (df : list A) (name : Z)
  : result (list (nat * A)) :=
  match filter (λ ir, key ir.2 = name) (enumerate df) with
  | [] => Raise (KeyError name)
  | g => Ok g
  end.

(** [df.loc[labels].reset_index(drop=True)] *)
Definition loc {A} (df : list A) (labels : list nat) : result (list A) :=
  mapR (λ i, match df !! i with
             | Some row => Ok row
             | None => Raise (KeyError (Z.of_nat i))
             end) labels.

(** ** The collaborators

    [ResponseTrack], [spatio_temporal_iou] and [spatio_temporal_iou_matches]
    are imported by the file and defined elsewhere; they are taken as
    parameters.  A match dictionary is the list of its items. *)

Class Collaborators := {
  ResponseTrack : Type;
  track_length : ResponseTrack → Z;
  track_score : ResponseTrack → Q;
  spatio_temporal_iou : ResponseTrack → list ResponseTrack → list Q;
  spatio_temporal_iou_matches :
    ResponseTrack → list ResponseTrack → list (list (Z * Q));
}.

(** The two strings that pass the assertions of lines 31 and 128. *)
Inductive Mode : Type := take_max_stiou | take_max_score.

Section Aggregator.
Context `{Collaborators, Argsort}.

(** Rows of the two data frames. *)
Record gt_row := {
  gt_video_id : Z;
  gt_response_track : ResponseTrack;
}.

Record pred_row := {
  video_id : Z;
  response_track : ResponseTrack;
  score : Q;
}.

(** The four arrays filled by the scoring pass. *)
Record arrays := {
  st_iou : matrix;
  iou_sum : matrix;
  track_acc_count : matrix;
  track_total_count : matrix;
}.

(** The three lists of lists filled by the winner selection. *)
Record finals := {
  final_iou_sum : list (list Q);
  final_track_acc_count : list (list Q);
  final_track_total_count : list (list Q);
}.

(** Lines 169-177, one iteration: the cells of prediction [idx] at one
    threshold. *)
Definition threshold_step (stiou_arr : Q) (stiou_matches : list (Z * Q))
    (gt_length : Z) (idx : nat) (a : arrays) (te : nat * Q) : arrays :=
  let '(tidx, iou_thr) := te in
  let stiou_values := stiou_matches.*2 in
  let mask := (λ v, Qle_bool iou_thr v) <$> stiou_values in
  let t_sum := count_nonzero mask in
  let i_sum := np_sum (bool_index stiou_values mask) in
  {| st_iou := set2 tidx idx stiou_arr (st_iou a);
     iou_sum := set2 tidx idx i_sum (iou_sum a);
     track_acc_count := set2 tidx idx (inject_Z (Z.of_nat t_sum)) (track_acc_count a);
     track_total_count := set2 tidx idx (inject_Z gt_length) (track_total_count a) |}.

(** Lines 150-177, one iteration of the loop over the predictions. *)
Definition scoring_step (ground_truth : list gt_row) (iou_thresholds : list Q)
    (a : arrays) (ip : nat * pred_row) : result arrays :=
  let '(idx, this_pred) := ip in
  match get_group gt_video_id ground_truth (video_id this_pred) with
  | inl _ => Ok a
  | inr this_gt =>
      let gt_tracks := (λ ir, gt_response_track ir.2) <$> this_gt in
      stiou_arr <-- first (spatio_temporal_iou (response_track this_pred) gt_tracks) ;;
      stiou_matches <-- first (spatio_temporal_iou_matches (response_track this_pred) gt_tracks) ;;
      gt0 <-- first gt_tracks ;;
      Ok (foldl (threshold_step stiou_arr stiou_matches (track_length gt0) idx)
                a (enumerate iou_thresholds))
  end.

Definition scoring_pass (ground_truth : list gt_row) (prediction : list pred_row)
    (iou_thresholds : list Q) : result arrays :=
  let z := zeros2 (length iou_thresholds) (length prediction) in
  foldM (scoring_step ground_truth iou_thresholds)
        {| st_iou := z; iou_sum := z; track_acc_count := z; track_total_count := z |}
        (enumerate prediction).

(** Lines 190-194: the index, in the sorted frame, of the prediction picked
    for one video at one threshold. *)
Definition max_idx (mode : Mode) (a : arrays) (tidx : nat)
    (prediction_videoid : list (nat * pred_row)) : nat :=
  let pred_idxs := prediction_videoid.*1 in
  let k := match mode with
           | take_max_stiou => argmax ((λ i, get2 (st_iou a) tidx i) <$> pred_idxs)
           | take_max_score => argmax ((λ ir, score ir.2) <$> prediction_videoid)
           end in
  nth k pred_idxs 0.

(** Lines 188-197, one iteration of the loop over the thresholds. *)
Definition selection_threshold_step (mode : Mode) (a : arrays)
    (prediction_videoid : list (nat * pred_row)) (f : finals) (te : nat * Q)
  : finals :=
  let '(tidx, _) := te in
  let i := max_idx mode a tidx prediction_videoid in
  {| final_iou_sum := append_at tidx (get2 (iou_sum a) tidx i) (final_iou_sum f);
     final_track_acc_count :=
       append_at tidx (get2 (track_acc_count a) tidx i) (final_track_acc_count f);
     final_track_total_count :=
       append_at tidx (get2 (track_total_count a) tidx i) (final_track_total_count f) |}.

(** Lines 185-197, one iteration of the loop over the ground truth. *)
Definition selection_step (mode : Mode) (prediction : list pred_row)
    (iou_thresholds : list Q) (a : arrays) (f : finals) (this_gt : gt_row)
  : result finals :=
  prediction_videoid <-- get_group video_id prediction (gt_video_id this_gt) ;;
  Ok (foldl (selection_threshold_step mode a prediction_videoid) f
            (enumerate iou_thresholds)).

Definition winner_selection (mode : Mode) (ground_truth : list gt_row)
    (prediction : list pred_row) (iou_thresholds : list Q) (a : arrays)
  : result finals :=
  let e := replicate (length iou_thresholds) [] in
  foldM (selection_step mode prediction iou_thresholds a)
        {| final_iou_sum := e; final_track_acc_count := e;
           final_track_total_count := e |}
        ground_truth.

(** Lines 199-204, one iteration. *)
Definition aggregation_step (f : finals) (robustness : list Q) (te : nat * Q)
  : list Q :=
  let '(tidx, _) := te in
  let acc := nth tidx (final_track_acc_count f) [] in
  let total := nth tidx (final_track_total_count f) [] in
  if Qltb 0 (np_sum total)
  then <[tidx := (100 * np_sum acc / np_sum total)%Q]> robustness
  else robustness.

(** Lines 133-135. *)
Definition sort_idx (prediction : list pred_row) : list nat :=
  reverse (argsort (score <$> prediction)).

(** The value under the key ["% recovery"] of the dictionary returned by
    [compute_tracking_metrics]. *)
Definition compute_tracking_metrics (ground_truth : list gt_row)
    (prediction : list pred_row) (iou_thresholds : list Q) (mode : Mode)
  : result (list Q) :=
  let robustness := replicate (length iou_thresholds) 0%Q in
  match prediction with
  | [] => Ok robustness
  | _ =>
      prediction <-- loc prediction (sort_idx prediction) ;;
      a <-- scoring_pass ground_truth prediction iou_thresholds ;;
      f <-- winner_selection mode ground_truth prediction iou_thresholds a ;;
      Ok (foldl (aggregation_step f) robustness (enumerate iou_thresholds))
  end.

(** The default of the parameter [iou_thresholds]. *)
Definition default_iou_thresholds : list Q := linspace (1 # 2) (95 # 100) 10.

(** ** The facade *)

Record TrackingMetrics := {
  ap : option Q;
  ground_truth : list gt_row;
  prediction : list pred_row;
  mode : Mode;
  suffix : string;
  ignore_iou_averaging : bool;
  tracking_metrics : option (list (string * list Q));
  average_tracking_metrics : option (list (string * Q));
}.

(** The class attribute [iou_thresholds]. *)
Definition iou_thresholds : list Q := [1 # 2; 3 # 4; 95 # 100]%Q.

Definition _import_ground_truth (ground_truth : list ResponseTrack) : list gt_row :=
  (λ ig, {| gt_video_id := Z.of_nat ig.1; gt_response_track := ig.2 |})
    <$> enumerate ground_truth.

Definition _import_prediction (prediction : list (list ResponseTrack)) : list pred_row :=
  mjoin ((λ ip : nat * list ResponseTrack,
            (λ pred, {| video_id := Z.of_nat ip.1; response_track := pred;
                        score := track_score pred |}) <$> ip.2)
           <$> enumerate prediction).

Definition __init__ (ground_truth : list ResponseTrack)
    (prediction : list (list ResponseTrack)) (mode : Mode)
    (ignore_iou_averaging : bool) : TrackingMetrics :=
  {| ap := None;
     ground_truth := _import_ground_truth ground_truth;
     prediction := _import_prediction prediction;
     mode := mode;
     suffix := match mode with
               | take_max_stiou => "(max iou)"
               | take_max_score => "(max scr)"
               end;
     ignore_iou_averaging := ignore_iou_averaging;
     tracking_metrics := None;
     average_tracking_metrics := None |}.

(** [v.mean()] *)
Definition np_mean (v : list Q) : Q := (np_sum v / inject_Z (Z.of_nat (length v)))%Q.

Definition evaluate (self : TrackingMetrics) : result TrackingMetrics :=
  r <-- compute_tracking_metrics (ground_truth self) (prediction self)
          iou_thresholds (mode self) ;;
  let tm := [("% recovery"%string, r)] in
  Ok {| ap := ap self;
        ground_truth := ground_truth self;
        prediction := prediction self;
        mode := mode self;
        suffix := suffix self;
        ignore_iou_averaging := ignore_iou_averaging self;
        tracking_metrics := Some tm;
        average_tracking_metrics := Some ((λ kv, (kv.1, np_mean kv.2)) <$> tm) |}.

(** ** What the loops compute

    The definitions below describe the contents of the arrays without the
    loops; the facts further down relate them to the code above. *)

(** What the scoring pass learns about one prediction: [None] for a
    prediction whose video has no ground truth. *)
Record entry := {
  e_stiou : Q;
  e_matches : list (Z * Q);
  e_length : Z;
}.

Definition pred_entry (ground_truth : list gt_row) (this_pred : pred_row)
  : result (option entry) :=
  match get_group gt_video_id ground_truth (video_id this_pred) with
  | inl _ => Ok None
  | inr this_gt =>
      let gt_tracks := (λ ir, gt_response_track ir.2) <$> this_gt in
      stiou_arr <-- first (spatio_temporal_iou (response_track this_pred) gt_tracks) ;;
      stiou_matches <-- first (spatio_temporal_iou_matches (response_track this_pred) gt_tracks) ;;
      gt0 <-- first gt_tracks ;;
      Ok (Some {| e_stiou := stiou_arr; e_matches := stiou_matches;
                  e_length := track_length gt0 |})
  end.

Definition entry_of (ground_truth : list gt_row) (this_pred : pred_row)
  : option entry :=
  match pred_entry ground_truth this_pred with
  | inr oe => oe
  | inl _ => None
  end.

(** The cell of each array for one prediction at one threshold. *)
Definition cell_st (iou_thr : Q) (oe : option entry) : Q :=
  match oe with Some e => e_stiou e | None => 0 end.

Definition accurate (iou_thr : Q) (e : entry) : list bool :=
  (λ v, Qle_bool iou_thr v) <$> (e_matches e).*2.

Definition cell_sum (iou_thr : Q) (oe : option entry) : Q :=
  match oe with
  | Some e => np_sum (bool_index (e_matches e).*2 (accurate iou_thr e))
  | None => 0
  end.

Definition cell_acc (iou_thr : Q) (oe : option entry) : Q :=
  match oe with
  | Some e => inject_Z (Z.of_nat (count_nonzero (accurate iou_thr e)))
  | None => 0
  end.

Definition cell_tot (iou_thr : Q) (oe : option entry) : Q :=
  match oe with Some e => inject_Z (e_length e) | None => 0 end.

(** One column per processed prediction, zeros for the [n] others. *)
Definition mid_matrix (c : Q → option entry → Q) (iou_thresholds : list Q)
    (done : list (option entry)) (n : nat) : matrix :=
  (λ thr, (c thr <$> done) ++ replicate n 0%Q) <$> iou_thresholds.

Definition arrays_mid (iou_thresholds : list Q) (done : list (option entry))
    (n : nat) : arrays :=
  {| st_iou := mid_matrix cell_st iou_thresholds done n;
     iou_sum := mid_matrix cell_sum iou_thresholds done n;
     track_acc_count := mid_matrix cell_acc iou_thresholds done n;
     track_total_count := mid_matrix cell_tot iou_thresholds done n |}.

Definition arrays_of (iou_thresholds : list Q) (es : list (option entry)) : arrays :=
  arrays_mid iou_thresholds es 0.

(** The column filled by lines 169-177 for one prediction in one array. *)
Definition fill_col (idx : nat) (c : Q → Q) (m : matrix) (l : list (nat * Q)) : matrix :=
  foldl (λ m te, set2 te.1 idx (c te.2) m) m l.

(** The value appended by lines 195-197 to each list of one array. *)
Definition append_col (c : nat → Q) (f : list (list Q)) (l : list (nat * Q))
  : list (list Q) :=
  foldl (λ f te, append_at te.1 (c te.1) f) f l.

(** Line 204. *)
Definition robustness_of (acc total : list Q) : Q :=
  if Qltb 0 (np_sum total) then (100 * np_sum acc / np_sum total)%Q else 0%Q.

(** The predictions of one video, in frame order. *)
Definition rows_of (prediction : list pred_row) (v : Z) : list pred_row :=
  filter (λ p, video_id p = v) prediction.

(** The frame after lines 134-135. *)
Definition sorted (prediction : list pred_row) : list pred_row :=
  match loc prediction (sort_idx prediction) with
  | inr frame => frame
  | inl _ => []
  end.

(** The quantity maximised by the winner selection. *)
Definition key_of (mode : Mode) (ground_truth : list gt_row) (p : pred_row) : Q :=
  match mode with
  | take_max_stiou => cell_st 0 (entry_of ground_truth p)
  | take_max_score => score p
  end.

(** The winner among the rows of one video. *)
Definition winner (mode : Mode) (ground_truth : list gt_row)
    (rows : list pred_row) : option pred_row :=
  rows !! argmax (key_of mode ground_truth <$> rows).

Definition winner_entry (mode : Mode) (ground_truth : list gt_row)
    (rows : list pred_row) : option entry :=
  p ← winner mode ground_truth rows; entry_of ground_truth p.

(** The checks that make the two loops raise. *)
Definition scoring_check (ground_truth : list gt_row) (prediction : list pred_row)
  : result unit :=
  if forallb (λ p, match pred_entry ground_truth p with inr _ => true | inl _ => false end)
       prediction
  then Ok () else Raise IndexError.

Definition selection_check (ground_truth : list gt_row) (prediction : list pred_row)
  : result (list unit) :=
  mapR (λ g, match rows_of prediction (gt_video_id g) with
             | [] => Raise (KeyError (gt_video_id g))
             | _ => Ok ()
             end) ground_truth.

(** The robustness vector, read off the winners. *)
Definition robustness_vector (mode : Mode) (ground_truth : list gt_row)
    (prediction : list pred_row) (iou_thresholds : list Q) : list Q :=
  let w g := winner_entry mode ground_truth
               (rows_of (sorted prediction) (gt_video_id g)) in
  (λ thr, robustness_of ((λ g, cell_acc thr (w g)) <$> ground_truth)
                        ((λ g, cell_tot thr (w g)) <$> ground_truth))
    <$> iou_thresholds.

(** The group of one ground-truth video in the prediction frame. *)
Definition group_of (prediction : list pred_row) (g : gt_row) : list (nat * pred_row) :=
  filter (λ ir, video_id ir.2 = gt_video_id g) (enumerate prediction).

(** The value appended for ground-truth row [g] at threshold index
    [tidx] from the array [m]. *)
Definition picked (mode : Mode) (prediction : list pred_row) (a : arrays)
    (m : matrix) (tidx : nat) (g : gt_row) : Q :=
  get2 m tidx (max_idx mode a tidx (group_of prediction g)).

(** The lists of the winner selection after the rows [done]. *)
Definition finals_of (mode : Mode) (prediction : list pred_row)
    (iou_thresholds : list Q) (a : arrays) (done : list gt_row) : finals :=
  let col m := (λ te : nat * Q, picked mode prediction a m te.1 <$> done)
                 <$> enumerate iou_thresholds in
  {| final_iou_sum := col (iou_sum a);
     final_track_acc_count := col (track_acc_count a);
     final_track_total_count := col (track_total_count a) |}.

(** ** Vocabulary of the statements *)

(** The aggregator, run on these inputs, picks prediction [p] for the
    ground-truth row [g] at threshold index [tidx]. *)
Definition selects (mode : Mode) (ground_truth : list gt_row)
    (prediction : list pred_row) (iou_thresholds : list Q) (tidx : nat)
    (g : gt_row) (p : pred_row) : Prop :=
  ∃ frame a grp,
    loc prediction (sort_idx prediction) = Ok frame ∧
    scoring_pass ground_truth frame iou_thresholds = Ok a ∧
    get_group video_id frame (gt_video_id g) = Ok grp ∧
    frame !! max_idx mode a tidx grp = Some p.

(** [p] is the first row of [rows], in their order, that holds the largest
    score. *)
Definition earliest_max_score (rows : list pred_row) (p : pred_row) : Prop :=
  ∃ l1 l2, rows = l1 ++ p :: l2 ∧
    Forall (λ q, (score q < score p)%Q) l1 ∧ Forall (λ q, (score q <= score p)%Q) l2.

(** The match dictionary of [p] has no more frames than the ground-truth
    track of its video. *)
Definition matched_within_length (ground_truth : list gt_row) (p : pred_row) : Prop :=
  ∀ this_gt stiou_matches gt0,
    get_group gt_video_id ground_truth (video_id p) = Ok this_gt →
    first (spatio_temporal_iou_matches (response_track p)
             ((λ ir, gt_response_track ir.2) <$> this_gt)) = Ok stiou_matches →
    first ((λ ir, gt_response_track ir.2) <$> this_gt) = Ok gt0 →
    (Z.of_nat (length stiou_matches) ≤ track_length gt0)%Z.

(** The whole-track IoU of [p] against the ground truth of its video. *)
Definition whole_track_iou (ground_truth : list gt_row) (p : pred_row) : Q :=
  match get_group gt_video_id ground_truth (video_id p) with
  | inl _ => 0
  | inr this_gt =>
      match spatio_temporal_iou (response_track p)
              ((λ ir, gt_response_track ir.2) <$> this_gt) with
      | [] => 0
      | stiou_arr :: _ => stiou_arr
      end
  end.

End Aggregator.

(** ** A concrete instance

    Tracks reduced to what the metric reads: length, score, and the overlap
    with the ground truth of the video (whole-track IoU and the IoU of each
    matched frame). *)
Module Demo.

Record track := {
  t_length : Z;
  t_score : Q;
  overlap : Q;
  frames : list (Z * Q);
}.

#[export] Instance collaborators : Collaborators := {|
  ResponseTrack := track;
  track_length := t_length;
  track_score := t_score;
  spatio_temporal_iou t cs := (λ _, overlap t) <$> cs;
  spatio_temporal_iou_matches t cs := (λ _, frames t) <$> cs;
|}.

Definition matched (n : nat) (iou : Q) : list (Z * Q) :=
  (λ i, (Z.of_nat i, iou)) <$> seq 0 n.

(** A ground-truth track of 10 frames. *)
Definition G : track :=
  {| t_length := 10; t_score := 0; overlap := 1; frames := matched 10 1 |}.

(** 5 frames matched at IoU 0.6, score 0.9. *)
Definition P1 : track :=
  {| t_length := 5; t_score := 9 # 10; overlap := 3 # 10; frames := matched 5 (6 # 10) |}.

(** 10 frames matched at IoU 0.8, score 0.3. *)
Definition P2 : track :=
  {| t_length := 10; t_score := 3 # 10; overlap := 8 # 10; frames := matched 10 (8 # 10) |}.

(** As [P2], with the score of [P1]. *)
Definition P3 : track :=
  {| t_length := 10; t_score := 9 # 10; overlap := 8 # 10; frames := matched 10 (8 # 10) |}.

(** 2 frames matched at IoU 0.6, score 0.1. *)
Definition P4 : track :=
  {| t_length := 2; t_score := 1 # 10; overlap := 1 # 10; frames := matched 2 (6 # 10) |}.

Definition gt : list gt_row := _import_ground_truth [G].
Definition g0 : gt_row := {| gt_video_id := 0; gt_response_track := G |}.
Definition row (v : Z) (t : track) : pred_row :=
  {| video_id := v; response_track := t; score := t_score t |}.

Definition facade : TrackingMetrics := __init__ [G] [[P1; P2]] take_max_score false.

Definition no_arrays : arrays :=
  {| st_iou := []; iou_sum := []; track_acc_count := []; track_total_count := [] |}.

End Demo.

(** ** The report of the facade *)

(** What [get_metrics] can raise: what [evaluate] raises, a missing
    attribute, a missing dictionary key, a subscript out of range. *)
Inductive report_exn : Type :=
| AggregatorError (e : exn)
| AttributeError
| ReportKeyError (k : string)
| ReportIndexError.

Fixpoint foldE {E A S} (f : S → A → E + S) (s : S) (l : list A) : E + S :=
  match l with
  | [] => inr s
  | x :: l' => match f s x with
               | inl e => inl e
               | inr s' => foldE f s' l'
               end
  end.

(** [d[k] = v] on an [OrderedDict]: a key already there keeps its place. *)
Fixpoint dict_set {V} (k : string) (v : V) (d : list (string * V))
  : list (string * V) :=
  match d with
  | [] => [(k, v)]
  | (k', v') :: d' =>
      if String.eqb k k' then (k', v) :: d' else (k', v') :: dict_set k v d'
  end.

(** [d[k]] *)
Fixpoint dict_get {V} (k : string) (d : list (string * V)) : option V :=
  match d with
  | [] => None
  | (k', v') :: d' => if String.eqb k k' then Some v' else dict_get k d'
  end.

(** The class attributes [metric_uuid] and [ious_to_report]. *)
Definition metric_uuid : string := "Tracking".
Definition ious_to_report : list Q := [1 # 2]%Q.

Section Report.
Context `{Collaborators, Argsort}.

(** [PRINT_FORMAT.format(a, b)], with [PRINT_FORMAT] imported from
    [.utils], and the float format [f"{x:.2f}"]. *)
Variable PRINT_FORMAT : string → string → string.
Variable format_2f : Q → string.

(** Lines 94-99, one iteration. *)
Definition report_step (metric_name : string) (v : list Q)
    (metrics : list (string * Q)) (te : nat * Q)
  : report_exn + list (string * Q) :=
  let '(tidx, iou_thr) := te in
  if negb (existsb (Qeq_bool iou_thr) ious_to_report) then inr metrics
  else match v !! tidx with
       | None => inl ReportIndexError
       | Some x =>
           inr (dict_set (PRINT_FORMAT metric_name ("@ IoU=" ++ format_2f iou_thr)) x
                         metrics)
       end.

(** Lines 89-99, one iteration. *)
Definition metrics_step (self : TrackingMetrics)
    (tm : list (string * list Q)) (avg_suffix : string)
    (metrics : list (string * Q)) (kv : string * Q)
  : report_exn + list (string * Q) :=
  let '(k, v) := kv in
  let metric_name := (metric_uuid ++ " " ++ k ++ " " ++ suffix self)%string in
  let metrics :=
    if negb (ignore_iou_averaging self)
    then dict_set (PRINT_FORMAT metric_name avg_suffix) v metrics
    else metrics in
  match dict_get k tm with
  | None => inl (ReportKeyError k)
  | Some v => foldE (report_step metric_name v) metrics (enumerate iou_thresholds)
  end.

(** The object after the call and the dictionary returned. *)
Definition get_metrics (self : TrackingMetrics)
  : report_exn + (TrackingMetrics * list (string * Q)) :=
  match evaluate self with
  | inl e => inl (AggregatorError e)
  | inr self =>
      let avg_suffix :=
        ("@ IoU=" ++ format_2f (hd 0%Q iou_thresholds) ++ ":"
                  ++ format_2f (List.last iou_thresholds 0%Q))%string in
      match average_tracking_metrics self, tracking_metrics self with
      | Some avg, Some tm =>
          match foldE (metrics_step self tm avg_suffix) [] avg with
          | inl e => inl e
          | inr metrics => inr (self, metrics)
          end
      | _, _ => inl AttributeError
      end
  end.

End Report.

(** ** More vocabulary *)

Section Contracts.
Context `{Collaborators, Argsort}.

(** The two overlap functions return something for [p] against the ground
    truth of its video. *)
Definition answered (ground_truth : list gt_row) (p : pred_row) : Prop :=
  ∀ this_gt,
    get_group gt_video_id ground_truth (video_id p) = Ok this_gt →
    spatio_temporal_iou (response_track p)
      ((λ ir, gt_response_track ir.2) <$> this_gt) ≠ [] ∧
    spatio_temporal_iou_matches (response_track p)
      ((λ ir, gt_response_track ir.2) <$> this_gt) ≠ [].

(** Every frame of the ground-truth track of the video of [p] is matched
    by [p] with an IoU of at least [iou_thr]; the track is not empty. *)
Definition fully_matched (iou_thr : Q) (ground_truth : list gt_row)
    (p : pred_row) : Prop :=
  ∀ this_gt stiou_matches gt0,
    get_group gt_video_id ground_truth (video_id p) = Ok this_gt →
    first (spatio_temporal_iou_matches (response_track p)
             ((λ ir, gt_response_track ir.2) <$> this_gt)) = Ok stiou_matches →
    first ((λ ir, gt_response_track ir.2) <$> this_gt) = Ok gt0 →
    Forall (λ v, (iou_thr <= v)%Q) stiou_matches.*2 ∧
    Z.of_nat (length stiou_matches) = track_length gt0 ∧
    (0 < track_length gt0)%Z.

(** No two rows of [rows] tie in score (rows that are equal in every
    field count as one). *)
Definition no_tie (rows : list pred_row) : Prop :=
  ∀ x y, x ∈ rows → y ∈ rows → (score x == score y)%Q → x = y.

(** At most one row of [rows] holds the largest score. *)
Definition unique_best (rows : list pred_row) : Prop :=
  ∀ x y, x ∈ rows → y ∈ rows →
    Forall (λ z, (score z <= score x)%Q) rows →
    Forall (λ z, (score z <= score y)%Q) rows → x = y.

(** The row built by [_import_prediction] for track [t] of video [i]. *)
Definition imported (i : nat) (t : ResponseTrack) : pred_row :=
  {| video_id := Z.of_nat i; response_track := t; score := track_score t |}.

End Contracts.

(** A plain instance of the two formats. *)
Module DemoReport.

Definition print_format (a b : string) : string := (a ++ " " ++ b)%string.

Definition digit (n : nat) : string :=
  String (Ascii.ascii_of_nat (48 + n mod 10)) EmptyString.

(** Two decimals, for a rational between 0 and 10. *)
Definition two_decimals (q : Q) : string :=
  let n := Z.to_nat ((200 * Qnum q + Z.pos (Qden q)) / (2 * Z.pos (Qden q))) in
  (digit (n / 100) ++ "." ++ digit (n / 10) ++ digit n)%string.

End DemoReport.

(** * Facts about the library models *)

Section Result.
Context {A B : Type}.

Lemma bind_Ok (a : A) (k : A → result B) : (x <-- Ok a ;; k x) = k a.
Proof. reflexivity. Qed.



Lemma mapR_fmap_Some (f : A → result B) (g : A → option B) (e : A → exn) l k :
  (∀ x, f x = match g x with Some y => Ok y | None => Raise (e x) end) →
  g <$> l = Some <$> k → mapR f l = Ok k.
Proof.
  intros Hf. revert k. induction l as [|x l IH]; intros [|y k] Hk; try discriminate.
  - reflexivity.
  - simpl in Hk. injection Hk as Hx Hk. simpl.
    rewrite Hf, Hx. simpl. by rewrite (IH k).
Qed.



Lemma mapR_ext_in (f g : A → result B) l :
  (∀ x, x ∈ l → f x = g x) → mapR f l = mapR g l.
Proof.
  induction l as [|x l IH]; intros Hfg; [done|]. simpl.
  rewrite (Hfg x) by left. rewrite IH; [done|].
  intros y Hy. apply Hfg. by right.
Qed.

End Result.

Section Numpy.

Lemma Qltb_lt x y : Qltb x y = true ↔ (x < y)%Q.
Proof.
  unfold Qltb. rewrite negb_true_iff, <- not_true_iff_false, Qle_bool_iff.
  split; [apply Qnot_le_lt | apply Qlt_not_le].
Qed.

Lemma Qltb_ge x y : Qltb x y = false ↔ (y <= x)%Q.
Proof. unfold Qltb. by rewrite negb_false_iff, Qle_bool_iff. Qed.

Lemma enumerate_from_snd {A} i (l : list A) : (enumerate_from i l).*2 = l.
Proof. revert i. induction l as [|x l IH]; intros i; simpl; [done|]. by rewrite IH. Qed.


Lemma enumerate_from_lookup {A} i (l : list A) j :
  enumerate_from i l !! j = (λ x, (i + j, x)) <$> l !! j.
Proof.
  revert i j. induction l as [|x l IH]; intros i [|j]; simpl; try done.
  - by rewrite Nat.add_0_r.
  - rewrite IH. by replace (S i + j) with (i + S j) by lia.
Qed.

Lemma elem_of_enumerate_from {A} i (l : list A) j x :
  (j, x) ∈ enumerate_from i l → i ≤ j ∧ l !! (j - i) = Some x.
Proof.
  intros [k Hk]%list_elem_of_lookup. rewrite enumerate_from_lookup in Hk.
  destruct (l !! k) as [y|] eqn:Hy; [|discriminate]. simpl in Hk.
  injection Hk as <- <-. split; [lia|]. by replace (i + k - i) with k by lia.
Qed.

Lemma fmap_enumerate_from {A B} (f : nat * A → B) (g : A → B) i (l : list A) :
  (∀ j x, l !! j = Some x → f (i + j, x) = g x) →
  f <$> enumerate_from i l = g <$> l.
Proof.
  revert i. induction l as [|x l IH]; intros i Hfg; simpl; [done|]. f_equal.
  - rewrite <- (Hfg 0 x); [|done]. by rewrite Nat.add_0_r.
  - apply IH. intros j y Hy. rewrite <- (Hfg (S j) y); [|done].
    by replace (S i + j) with (i + S j) by lia.
Qed.

Lemma isort_cons {A} (k : A → Q) x l : isort k (x :: l) = ins k x (isort k l).
Proof. reflexivity. Qed.

Lemma ins_Permutation {A} (k : A → Q) x l : ins k x l ≡ₚ x :: l.
Proof.
  induction l as [|y l IH]; simpl; [done|].
  destruct (Qle_bool (k x) (k y)); [done|]. rewrite IH. apply Permutation_swap.
Qed.

Lemma isort_Permutation {A} (k : A → Q) l : isort k l ≡ₚ l.
Proof.
  induction l as [|y l IH]; [done|].
  by rewrite isort_cons, ins_Permutation, IH.
Qed.

Lemma ins_ascending {A} (k : A → Q) x l : ascending k l → ascending k (ins k x l).
Proof.
  unfold ascending. induction 1 as [|y l Hl IH Hy]; simpl.
  - repeat constructor.
  - destruct (Qle_bool (k x) (k y)) eqn:Hxy.
    + apply Qle_bool_iff in Hxy. constructor; [by constructor|].
      constructor; [done|]. eapply Forall_impl; [exact Hy|].
      intros z Hz. simpl in Hz. by eapply Qle_trans.
    + constructor; [done|]. rewrite ins_Permutation. constructor; [|done].
      apply not_true_iff_false in Hxy. rewrite Qle_bool_iff in Hxy.
      apply Qlt_le_weak. by apply Qnot_le_lt.
Qed.

Lemma isort_ascending {A} (k : A → Q) l : ascending k (isort k l).
Proof.
  induction l as [|y l IH]; [constructor|].
  rewrite isort_cons. by apply ins_ascending.
Qed.

Lemma ascending_fmap {A B} (f : A → B) (k : B → Q) l :
  ascending k (f <$> l) ↔ ascending (k ∘ f) l.
Proof.
  unfold ascending. induction l as [|x l IH]; [split; constructor|].
  rewrite fmap_cons, !StronglySorted_cons, Forall_fmap, IH. done.
Qed.

Lemma ascending_ext {A} (k1 k2 : A → Q) l :
  (∀ x, k1 x = k2 x) → ascending k1 l → ascending k2 l.
Proof.
  intros Hk. unfold ascending. induction 1 as [|x l Hl IH Hx]; constructor; [done|].
  eapply Forall_impl; [exact Hx|]. intros y. simpl. by rewrite !Hk.
Qed.

Lemma ascending_filter {A} (k : A → Q) (P : A → Prop) `{∀ x, Decision (P x)} l :
  ascending k l → ascending k (filter P l).
Proof.
  unfold ascending. induction 1 as [|x l Hl IH Hx]; [constructor|].
  rewrite filter_cons. destruct (decide (P x)); [|done].
  constructor; [done|]. apply Forall_forall. intros y [_ Hy]%list_elem_of_filter.
  by eapply Forall_forall in Hx.
Qed.

(** An ascending list, read backwards, ascends in the opposite keys. *)
Lemma ascending_reverse {A} (k : A → Q) l :
  ascending (λ x, (- k x)%Q) l → ascending k (reverse l).
Proof.
  unfold ascending. induction 1 as [|x l Hl IH Hx]; [constructor|].
  rewrite reverse_cons. apply StronglySorted_app. split; [|split; [done|]].
  - intros y z Hy Hz. apply list_elem_of_singleton in Hz as ->.
    rewrite elem_of_reverse in Hy. eapply Forall_forall in Hx; [|exact Hy].
    simpl in Hx. lra.
  - repeat constructor.
Qed.

Lemma ascending_lookup {A} (k : A → Q) (l : list A) i j x y :
  ascending k l → i ≤ j → l !! i = Some x → l !! j = Some y → (k x <= k y)%Q.
Proof.
  intros Hl. revert i j. induction Hl as [|z l _ IH Hz]; intros i j Hij Hi Hj;
    [done|].
  destruct i as [|i], j as [|j]; simpl in *; try lia.
  - injection Hi as <-. injection Hj as <-. apply Qle_refl.
  - injection Hi as <-. eapply Forall_forall in Hz; [exact Hz|].
    by eapply list_elem_of_lookup_2.
  - eapply IH; [|done..]. lia.
Qed.

(** The three sorts are within the contract of [argsort]. *)
Lemma insertion_argsort_Permutation a : insertion_argsort a ≡ₚ seq 0 (length a).
Proof. apply isort_Permutation. Qed.

Lemma insertion_argsort_ascending a :
  ascending (λ i, nth i a 0%Q) (insertion_argsort a).
Proof. apply isort_ascending. Qed.

Lemma reversing_argsort_Permutation a : reversing_argsort a ≡ₚ seq 0 (length a).
Proof. unfold reversing_argsort. by rewrite reverse_Permutation, isort_Permutation. Qed.

Lemma reversing_argsort_ascending a :
  ascending (λ i, nth i a 0%Q) (reversing_argsort a).
Proof. apply ascending_reverse, isort_ascending. Qed.

Lemma alternating_argsort_Permutation a : alternating_argsort a ≡ₚ seq 0 (length a).
Proof.
  unfold alternating_argsort. destruct (Nat.even _);
    [apply insertion_argsort_Permutation|apply reversing_argsort_Permutation].
Qed.

Lemma alternating_argsort_ascending a :
  ascending (λ i, nth i a 0%Q) (alternating_argsort a).
Proof.
  unfold alternating_argsort. destruct (Nat.even _);
    [apply insertion_argsort_ascending|apply reversing_argsort_ascending].
Qed.

End Numpy.

(** The sorts as instances of the contract. *)
Module Sorts.

#[export] Instance insertion : Argsort := {|
  argsort := insertion_argsort;
  argsort_Permutation := insertion_argsort_Permutation;
  argsort_ascending := insertion_argsort_ascending;
|}.

Definition reversing : Argsort := {|
  argsort := reversing_argsort;
  argsort_Permutation := reversing_argsort_Permutation;
  argsort_ascending := reversing_argsort_ascending;
|}.

Definition alternating : Argsort := {|
  argsort := alternating_argsort;
  argsort_Permutation := alternating_argsort_Permutation;
  argsort_ascending := alternating_argsort_ascending;
|}.

End Sorts.

Section Argmax.

Lemma argmax_from_first_max done best best_i a :
  first_max done best_i → done !! best_i = Some best →
  first_max (done ++ a) (argmax_from best best_i (length done) a).
Proof.
  revert done best best_i.
  induction a as [|x a IH]; intros done best best_i Hfm Hbest; simpl.
  - by rewrite app_nil_r.
  - destruct Hfm as (b & Hb & Hle & Hlt).
    assert (b = best) as -> by congruence.
    replace (done ++ x :: a) with ((done ++ [x]) ++ a) by by rewrite <- app_assoc.
    replace (S (length done)) with (length (done ++ [x])) by (rewrite length_app; simpl; lia).
    destruct (Qltb best x) eqn:Hx.
    + apply Qltb_lt in Hx. apply IH.
      * exists x. split; [by rewrite lookup_app_r, Nat.sub_diag|]. split.
        -- apply Forall_app. split; [|repeat constructor; apply Qle_refl].
           eapply Forall_impl; [exact Hle|]. intros y Hy. simpl in *. lra.
        -- rewrite take_app_length. eapply Forall_impl; [exact Hle|].
           intros y Hy. simpl in *. lra.
      * by rewrite lookup_app_r, Nat.sub_diag.
    + apply Qltb_ge in Hx. pose proof (lookup_lt_Some _ _ _ Hbest) as Hi.
      apply IH.
      * exists best. split; [by rewrite lookup_app_l|]. split.
        -- apply Forall_app. split; [done|]. by repeat constructor.
        -- rewrite take_app_le by lia. done.
      * by rewrite lookup_app_l.
Qed.

Lemma argmax_first_max a : a ≠ [] → first_max a (argmax a).
Proof.
  destruct a as [|x a]; [done|]. intros _. simpl.
  apply (argmax_from_first_max [x] x 0 a); [|done].
  exists x. split; [done|]. split; [|constructor].
  repeat constructor. apply Qle_refl.
Qed.

Lemma first_max_unique a i j : first_max a i → first_max a j → i = j.
Proof.
  assert (∀ i j, first_max a i → first_max a j → ¬ i < j) as Hlt.
  { clear. intros i j (x & Hx & Hxle & _) (y & Hy & _ & Hylt) Hij.
    assert (x < y)%Q as H1.
    { eapply Forall_forall in Hylt; [exact Hylt|].
      apply elem_of_take. eauto. }
    assert (y <= x)%Q as H2.
    { eapply Forall_forall in Hxle; [exact Hxle|].
      by eapply list_elem_of_lookup_2. }
    lra. }
  intros Hi Hj. pose proof (Hlt i j Hi Hj). pose proof (Hlt j i Hj Hi). lia.
Qed.

Lemma argmax_lt_length a : a ≠ [] → argmax a < length a.
Proof.
  intros (x & Hx & _)%argmax_first_max. by eapply lookup_lt_Some.
Qed.

Lemma argmax_head x a : Forall (λ y, (y <= x)%Q) a → argmax (x :: a) = 0.
Proof.
  intros Ha. apply (first_max_unique (x :: a)); [by apply argmax_first_max|].
  exists x. split; [done|]. split; [|constructor].
  constructor; [apply Qle_refl|done].
Qed.

End Argmax.

Section Frames.
Context {A : Type}.

Lemma lookup_seq_fmap (l : list A) : (λ i, l !! i) <$> seq 0 (length l) = Some <$> l.
Proof.
  apply list_eq. intros i. rewrite !list_lookup_fmap.
  destruct (decide (i < length l)) as [Hi|Hi].
  - rewrite lookup_seq_lt by done. simpl.
    by destruct (lookup_lt_is_Some_2 l i Hi) as [x ->].
  - rewrite lookup_seq_ge by lia. by rewrite lookup_ge_None_2 by lia.
Qed.

Lemma filter_enumerate_from (P : A → Prop) `{∀ x, Decision (P x)} i (l : list A) :
  (filter (λ ir, P ir.2) (enumerate_from i l)).*2 = filter P l.
Proof.
  revert i. induction l as [|x l IH]; intros i; simpl; [done|].
  rewrite !filter_cons. simpl. destruct (decide (P x)); simpl; by rewrite IH.
Qed.

Lemma get_group_rows (key : A → Z) df name g :
  get_group key df name = Ok g →
  g ≠ [] ∧ g.*2 = filter (λ r, key r = name) df ∧
  Forall (λ ir, df !! ir.1 = Some ir.2) g.
Proof.
  unfold get_group.
  destruct (filter _ (enumerate df)) as [|ir g'] eqn:Hg; [discriminate|].
  intros [= <-]. split; [done|]. split.
  - rewrite <- Hg. exact (filter_enumerate_from (λ r, key r = name) 0 df).
  - rewrite <- Hg. apply Forall_forall. intros [j x] [_ Hjx]%list_elem_of_filter.
    apply elem_of_enumerate_from in Hjx as [_ Hjx]. simpl.
    by rewrite Nat.sub_0_r in Hjx.
Qed.

Lemma get_group_Raise (key : A → Z) df name e :
  get_group key df name = Raise e →
  e = KeyError name ∧ filter (λ r, key r = name) df = [].
Proof.
  unfold get_group.
  destruct (filter _ (enumerate df)) as [|ir g'] eqn:Hg; [|discriminate].
  intros [= <-]. split; [done|].
  by rewrite <- (filter_enumerate_from (λ r, key r = name) 0 df), Hg.
Qed.

End Frames.

(** * The scoring pass *)

Section Arrays.

Lemma set2_app_r (m1 m2 : matrix) row idx v :
  set2 (length m1) idx v (m1 ++ row :: m2) = m1 ++ <[idx := v]> row :: m2.
Proof. unfold set2. by rewrite alter_app_r_alt, Nat.sub_diag by lia. Qed.

Lemma append_at_app_r (f1 f2 : list (list Q)) l v :
  append_at (length f1) v (f1 ++ l :: f2) = f1 ++ (l ++ [v]) :: f2.
Proof. unfold append_at. by rewrite alter_app_r_alt, Nat.sub_diag by lia. Qed.

Lemma fill_col_cons idx (c : Q → Q) (m : matrix) i thr l :
  fill_col idx c m ((i, thr) :: l) = fill_col idx c (set2 i idx (c thr) m) l.
Proof. reflexivity. Qed.

Lemma append_col_cons (c : nat → Q) (f : list (list Q)) i (thr : Q) l :
  append_col c f ((i, thr) :: l) = append_col c (append_at i (c i) f) l.
Proof. reflexivity. Qed.

Lemma fill_col_spec idx (c : Q → Q) ths (m1 m2 : matrix) :
  length m2 = length ths →
  fill_col idx c (m1 ++ m2) (enumerate_from (length m1) ths)
  = m1 ++ zip_with (λ thr row, <[idx := c thr]> row) ths m2.
Proof.
  revert m1 m2. induction ths as [|thr ths IH]; intros m1 [|row m2] Hlen;
    try discriminate; [done|].
  cbn [enumerate_from zip_with]. rewrite fill_col_cons, set2_app_r.
  replace (S (length m1)) with (length (m1 ++ [<[idx := c thr]> row]))
    by (rewrite length_app; simpl; lia).
  rewrite (cons_middle _ m1 m2), app_assoc.
  rewrite IH by (simpl in Hlen; lia).
  by rewrite <- app_assoc.
Qed.

Lemma append_col_spec (c : nat → Q) ths (f1 f2 : list (list Q)) :
  length f2 = length ths →
  append_col c (f1 ++ f2) (enumerate_from (length f1) ths)
  = f1 ++ zip_with (λ te l, l ++ [c te.1]) (enumerate_from (length f1) ths) f2.
Proof.
  revert f1 f2. induction ths as [|thr ths IH]; intros f1 [|l f2] Hlen;
    try discriminate; [done|].
  cbn [enumerate_from zip_with]. rewrite append_col_cons, append_at_app_r.
  replace (S (length f1)) with (length (f1 ++ [l ++ [c (length f1)]])) at 1 2
    by (rewrite length_app; simpl; lia).
  rewrite (cons_middle _ f1 f2), app_assoc.
  rewrite IH by (simpl in Hlen; lia).
  by rewrite <- app_assoc.
Qed.

End Arrays.

Section ScoringPass.
Context `{Collaborators, Argsort}.

Lemma fill_col_mid (c : Q → option entry → Q) ths done n oe :
  fill_col (length done) (λ thr, c thr oe) (mid_matrix c ths done (S n)) (enumerate ths)
  = mid_matrix c ths (done ++ [oe]) n.
Proof.
  pose proof (fill_col_spec (length done) (λ thr, c thr oe) ths []
                (mid_matrix c ths done (S n))) as Hfill.
  simpl in Hfill. rewrite Hfill by (unfold mid_matrix; by rewrite length_fmap).
  unfold mid_matrix. rewrite zip_with_fmap_r, zip_with_diag.
  apply list_fmap_ext. intros _ thr _. simpl.
  rewrite insert_app_r_alt by (rewrite length_fmap; lia).
  rewrite length_fmap, Nat.sub_diag, fmap_app, <- app_assoc. done.
Qed.

Lemma mid_matrix_skip (c : Q → option entry → Q) ths done n :
  (∀ thr, c thr None = 0%Q) →
  mid_matrix c ths done (S n) = mid_matrix c ths (done ++ [None]) n.
Proof.
  intros Hc. unfold mid_matrix. apply list_fmap_ext. intros _ thr _. simpl.
  by rewrite fmap_app, <- app_assoc, <- (Hc thr).
Qed.

Lemma foldl_threshold_step stiou_arr stiou_matches gt_length idx a l :
  let e := {| e_stiou := stiou_arr; e_matches := stiou_matches; e_length := gt_length |} in
  foldl (threshold_step stiou_arr stiou_matches gt_length idx) a l =
  {| st_iou := fill_col idx (λ thr, cell_st thr (Some e)) (st_iou a) l;
     iou_sum := fill_col idx (λ thr, cell_sum thr (Some e)) (iou_sum a) l;
     track_acc_count := fill_col idx (λ thr, cell_acc thr (Some e)) (track_acc_count a) l;
     track_total_count := fill_col idx (λ thr, cell_tot thr (Some e)) (track_total_count a) l |}.
Proof.
  intros e. revert a. induction l as [|[tidx thr] l IH]; intros a; simpl.
  - by destruct a.
  - by rewrite IH.
Qed.

Lemma scoring_step_entry ground_truth ths a idx p :
  scoring_step ground_truth ths a (idx, p) =
  (oe <-- pred_entry ground_truth p ;;
   Ok (match oe with
       | None => a
       | Some e => foldl (threshold_step (e_stiou e) (e_matches e) (e_length e) idx)
                         a (enumerate ths)
       end)).
Proof.
  unfold scoring_step, pred_entry.
  destruct (get_group gt_video_id ground_truth (video_id p)) as [e|g]; [done|].
  destruct (first (spatio_temporal_iou _ _)) as [|s]; [done|].
  destruct (first (spatio_temporal_iou_matches _ _)) as [|m]; [done|].
  by destruct (first _) as [|g0].
Qed.

Lemma scoring_step_mid ground_truth ths done n p :
  scoring_step ground_truth ths (arrays_mid ths done (S n)) (length done, p) =
  (oe <-- pred_entry ground_truth p ;; Ok (arrays_mid ths (done ++ [oe]) n)).
Proof.
  rewrite scoring_step_entry.
  destruct (pred_entry ground_truth p) as [err|[e|]]; simpl; [done| |].
  - destruct e as [s m len]. cbn [e_stiou e_matches e_length].
    rewrite foldl_threshold_step. unfold arrays_mid.
    cbn [st_iou iou_sum track_acc_count track_total_count].
    do 2 f_equal;
      [ apply (fill_col_mid cell_st) | apply (fill_col_mid cell_sum)
      | apply (fill_col_mid cell_acc) | apply (fill_col_mid cell_tot) ].
  - unfold arrays_mid. do 2 f_equal; by apply mid_matrix_skip.
Qed.

Lemma scoring_loop ground_truth ths done rest :
  foldM (scoring_step ground_truth ths) (arrays_mid ths done (length rest))
        (enumerate_from (length done) rest) =
  (es <-- mapR (pred_entry ground_truth) rest ;; Ok (arrays_of ths (done ++ es))).
Proof.
  revert done. induction rest as [|p rest IH]; intros done;
    cbn [enumerate_from foldM mapR length].
  - simpl. by rewrite app_nil_r.
  - rewrite scoring_step_mid.
    destruct (pred_entry ground_truth p) as [err|oe]; [done|].
    change (inr oe) with (Ok (A:=option entry) oe). rewrite !bind_Ok.
    replace (S (length done)) with (length (done ++ [oe]))
      by (rewrite length_app; simpl; lia).
    rewrite IH. destruct (mapR _ rest) as [err|es]; simpl; [done|].
    by rewrite <- app_assoc.
Qed.

(** The arrays after the scoring pass: one column of cells per prediction,
    a column of zeros for a prediction without ground truth. *)
Lemma scoring_pass_arrays ground_truth prediction ths :
  scoring_pass ground_truth prediction ths =
  (es <-- mapR (pred_entry ground_truth) prediction ;; Ok (arrays_of ths es)).
Proof.
  pose proof (scoring_loop ground_truth ths [] prediction) as Hloop.
  cbn [app length] in Hloop. rewrite <- Hloop. unfold scoring_pass.
  f_equal. unfold arrays_mid, mid_matrix, zeros2. simpl.
  assert (∀ n, replicate (length ths) (replicate n 0%Q)
               = (λ _ : Q, replicate n 0%Q) <$> ths) as Hz.
  { intros n. symmetry. by apply const_fmap. }
  by rewrite Hz.
Qed.

Lemma pred_entry_entry_of ground_truth p oe :
  pred_entry ground_truth p = Ok oe → entry_of ground_truth p = oe.
Proof. unfold entry_of. by intros ->. Qed.

Lemma pred_entry_Raise ground_truth p e :
  pred_entry ground_truth p = Raise e → e = IndexError.
Proof.
  unfold pred_entry.
  destruct (get_group _ _ _) as [|g]; [discriminate|].
  destruct (spatio_temporal_iou _ _) as [|s ?]; simpl; [by intros [= <-]|].
  destruct (spatio_temporal_iou_matches _ _) as [|m ?]; simpl; [by intros [= <-]|].
  destruct (_ <$> g); simpl; [by intros [= <-]|discriminate].
Qed.

(** A cell of the arrays, read back. *)
Lemma get2_mid_matrix (c : Q → option entry → Q) ths es tidx thr i oe :
  ths !! tidx = Some thr → es !! i = Some oe →
  get2 (mid_matrix c ths es 0) tidx i = c thr oe.
Proof.
  intros Ht Hi. unfold get2, mid_matrix.
  rewrite (nth_lookup_Some _ _ _ ((c thr <$> es) ++ replicate 0 0%Q)).
  - cbn [replicate]. rewrite app_nil_r. apply nth_lookup_Some.
    by rewrite list_lookup_fmap, Hi.
  - by rewrite list_lookup_fmap, Ht.
Qed.

End ScoringPass.

(** * The winner selection and the aggregation *)

Section Selection.
Context `{Collaborators, Argsort}.

Lemma length_enumerate_from {A} i (l : list A) : length (enumerate_from i l) = length l.
Proof. by rewrite <- (length_fmap snd), enumerate_from_snd. Qed.

Lemma append_col_fmap {G} (c : nat → G → Q) ths (done : list G) g :
  append_col (λ tidx, c tidx g)
    ((λ te : nat * Q, c te.1 <$> done) <$> enumerate ths) (enumerate ths)
  = (λ te : nat * Q, c te.1 <$> (done ++ [g])) <$> enumerate ths.
Proof.
  pose proof (append_col_spec (λ tidx, c tidx g) ths []
                ((λ te : nat * Q, c te.1 <$> done) <$> enumerate ths)) as Happ.
  cbn [app length] in Happ.
  rewrite Happ by by rewrite length_fmap, length_enumerate_from.
  rewrite zip_with_fmap_r, zip_with_diag.
  apply list_fmap_ext. intros _ te _. simpl. by rewrite fmap_app.
Qed.

Lemma foldl_selection_threshold_step mode a grp f l :
  foldl (selection_threshold_step mode a grp) f l =
  {| final_iou_sum :=
       append_col (λ tidx, get2 (iou_sum a) tidx (max_idx mode a tidx grp))
                  (final_iou_sum f) l;
     final_track_acc_count :=
       append_col (λ tidx, get2 (track_acc_count a) tidx (max_idx mode a tidx grp))
                  (final_track_acc_count f) l;
     final_track_total_count :=
       append_col (λ tidx, get2 (track_total_count a) tidx (max_idx mode a tidx grp))
                  (final_track_total_count f) l |}.
Proof.
  revert f. induction l as [|[tidx thr] l IH]; intros f; simpl.
  - by destruct f.
  - by rewrite IH.
Qed.

Lemma get_group_group_of prediction g grp :
  get_group video_id prediction (gt_video_id g) = Ok grp → grp = group_of prediction g.
Proof.
  unfold get_group, group_of. destruct (filter _ _); [discriminate|]. by intros [= <-].
Qed.

Lemma selection_step_finals mode prediction ths a done g :
  selection_step mode prediction ths a (finals_of mode prediction ths a done) g =
  (_ <-- get_group video_id prediction (gt_video_id g) ;;
   Ok (finals_of mode prediction ths a (done ++ [g]))).
Proof.
  unfold selection_step.
  destruct (get_group video_id prediction (gt_video_id g)) as [e|grp] eqn:Hg; [done|].
  apply get_group_group_of in Hg as ->. cbn [bind]. f_equal.
  rewrite foldl_selection_threshold_step. unfold finals_of.
  cbn [final_iou_sum final_track_acc_count final_track_total_count].
  f_equal.
  - apply (append_col_fmap (picked mode prediction a (iou_sum a))).
  - apply (append_col_fmap (picked mode prediction a (track_acc_count a))).
  - apply (append_col_fmap (picked mode prediction a (track_total_count a))).
Qed.

Lemma selection_loop mode prediction ths a done rest :
  foldM (selection_step mode prediction ths a)
        (finals_of mode prediction ths a done) rest =
  (_ <-- mapR (λ g, get_group video_id prediction (gt_video_id g)) rest ;;
   Ok (finals_of mode prediction ths a (done ++ rest))).
Proof.
  revert done. induction rest as [|g rest IH]; intros done; cbn [foldM mapR].
  - simpl. by rewrite app_nil_r.
  - rewrite selection_step_finals.
    destruct (get_group video_id prediction (gt_video_id g)) as [e|grp]; [done|].
    change (inr grp) with (Ok grp). rewrite !bind_Ok, IH.
    destruct (mapR _ rest) as [e|grps]; [done|]. simpl.
    by rewrite <- app_assoc.
Qed.

(** The lists after the winner selection: one value per ground-truth row,
    unless some row has no prediction. *)
Lemma winner_selection_finals mode ground_truth prediction ths a :
  winner_selection mode ground_truth prediction ths a =
  (_ <-- mapR (λ g, get_group video_id prediction (gt_video_id g)) ground_truth ;;
   Ok (finals_of mode prediction ths a ground_truth)).
Proof.
  pose proof (selection_loop mode prediction ths a [] ground_truth) as Hloop.
  cbn [app] in Hloop. rewrite <- Hloop. unfold winner_selection. f_equal.
  assert (replicate (length ths) ([] : list Q)
          = (λ _ : nat * Q, []) <$> enumerate ths) as Hz.
  { symmetry. rewrite <- (length_enumerate_from 0 ths). by apply const_fmap. }
  unfold finals_of. simpl. by rewrite Hz.
Qed.

Lemma nth_final_col {G} (c : nat → G → Q) ths (gs : list G) tidx thr :
  ths !! tidx = Some thr →
  nth tidx ((λ te : nat * Q, c te.1 <$> gs) <$> enumerate ths) [] = c tidx <$> gs.
Proof.
  intros Ht. apply nth_lookup_Some.
  by rewrite list_lookup_fmap, enumerate_from_lookup, Ht.
Qed.

Lemma aggregation_loop f ths r1 :
  foldl (aggregation_step f) (r1 ++ replicate (length ths) 0%Q)
        (enumerate_from (length r1) ths) =
  r1 ++ ((λ te : nat * Q,
            robustness_of (nth te.1 (final_track_acc_count f) [])
                          (nth te.1 (final_track_total_count f) []))
           <$> enumerate_from (length r1) ths).
Proof.
  revert r1. induction ths as [|thr ths IH]; intros r1; [done|].
  cbn [enumerate_from length replicate foldl fmap list_fmap].
  assert (aggregation_step f (r1 ++ 0%Q :: replicate (length ths) 0%Q) (length r1, thr)
          = (r1 ++ [robustness_of (nth (length r1) (final_track_acc_count f) [])
                      (nth (length r1) (final_track_total_count f) [])])
            ++ replicate (length ths) 0%Q) as ->.
  { unfold aggregation_step, robustness_of. rewrite <- app_assoc.
    destruct (Qltb 0 _); [|done].
    by rewrite insert_app_r_alt, Nat.sub_diag by lia. }
  replace (S (length r1)) with (length (r1 ++ [robustness_of
              (nth (length r1) (final_track_acc_count f) [])
              (nth (length r1) (final_track_total_count f) [])]))
    by (rewrite length_app; simpl; lia).
  rewrite IH, <- app_assoc. rewrite length_app. simpl.
  by rewrite Nat.add_1_r.
Qed.

(** The robustness vector, from the lists of the winner selection. *)
Lemma aggregation_vector f ths :
  foldl (aggregation_step f) (replicate (length ths) 0%Q) (enumerate ths) =
  (λ te : nat * Q,
     robustness_of (nth te.1 (final_track_acc_count f) [])
                   (nth te.1 (final_track_total_count f) []))
    <$> enumerate ths.
Proof. apply (aggregation_loop f ths []). Qed.

End Selection.

(** * The aggregator, without its loops *)

Section Aggregation.
Context `{Collaborators, Argsort}.

Lemma sort_idx_Permutation (prediction : list pred_row) :
  sort_idx prediction ≡ₚ seq 0 (length prediction).
Proof.
  unfold sort_idx. by rewrite reverse_Permutation, argsort_Permutation, length_fmap.
Qed.

Lemma lookup_total {A} (l : list A) (idx : list nat) :
  Forall (λ i, i < length l) idx → ∃ k, (λ i, l !! i) <$> idx = Some <$> k.
Proof.
  induction 1 as [|i idx Hi _ [k Hk]]; [by exists []|].
  destruct (lookup_lt_is_Some_2 l i Hi) as [x Hx].
  exists (x :: k). by rewrite !fmap_cons, Hk, Hx.
Qed.

Lemma omap_id_fmap_Some {A} (l : list A) : omap id (Some <$> l) = l.
Proof. induction l as [|x l IH]; [done|]. rewrite fmap_cons. cbn. by f_equal. Qed.

(** Lines 134-135 do not raise: every label of [sort_idx] is a label of
    the frame.  They build the frame [sorted prediction], which holds the
    row of label [i] where [sort_idx] holds [i]. *)
Lemma sorted_rows (prediction : list pred_row) :
  loc prediction (sort_idx prediction) = Ok (sorted prediction) ∧
  Some <$> sorted prediction = (λ i, prediction !! i) <$> sort_idx prediction.
Proof.
  destruct (lookup_total prediction (sort_idx prediction)) as [k Hk].
  { apply Forall_forall. intros i Hi. rewrite sort_idx_Permutation in Hi.
    apply elem_of_seq in Hi. lia. }
  assert (loc prediction (sort_idx prediction) = Ok k) as Hloc.
  { apply (mapR_fmap_Some _ (λ i, prediction !! i) (λ i, KeyError (Z.of_nat i)));
      [|done].
    intros i. by destruct (prediction !! i). }
  unfold sorted. rewrite Hloc. done.
Qed.

Lemma loc_sort_idx (prediction : list pred_row) :
  loc prediction (sort_idx prediction) = Ok (sorted prediction).
Proof. apply sorted_rows. Qed.

(** The frame holds the same rows as before. *)
Lemma sorted_Permutation (prediction : list pred_row) : sorted prediction ≡ₚ prediction.
Proof.
  assert (omap id (Some <$> sorted prediction) ≡ₚ omap id (Some <$> prediction)) as Hp.
  { apply omap_Permutation.
    rewrite (proj2 (sorted_rows prediction)), sort_idx_Permutation.
    by rewrite lookup_seq_fmap. }
  by rewrite !omap_id_fmap_Some in Hp.
Qed.

(** The frame is in descending order of score. *)
Lemma sorted_descending (prediction : list pred_row) :
  ascending score (reverse (sorted prediction)).
Proof.
  apply (ascending_ext (from_option score 0%Q ∘ Some)); [done|].
  apply ascending_fmap. rewrite fmap_reverse, (proj2 (sorted_rows prediction)).
  unfold sort_idx. rewrite fmap_reverse, reverse_involutive.
  apply ascending_fmap.
  eapply ascending_ext; [|apply (argsort_ascending (score <$> prediction))].
  intros i. simpl. rewrite nth_lookup, list_lookup_fmap.
  by destruct (prediction !! i).
Qed.

(** The rows of one video in the frame: the rows of that video, in
    descending order of score. *)
Lemma rows_of_sorted_Permutation (prediction : list pred_row) v :
  rows_of (sorted prediction) v ≡ₚ rows_of prediction v.
Proof. unfold rows_of. by rewrite sorted_Permutation. Qed.

Lemma rows_of_sorted_descending (prediction : list pred_row) v :
  ascending score (reverse (rows_of (sorted prediction) v)).
Proof.
  unfold rows_of. rewrite <- filter_reverse.
  apply ascending_filter, sorted_descending.
Qed.

Lemma rows_of_sorted_nil (prediction : list pred_row) v :
  rows_of (sorted prediction) v = [] ↔ rows_of prediction v = [].
Proof.
  rewrite <- !Permutation_nil_r. by rewrite rows_of_sorted_Permutation.
Qed.

Lemma elem_of_rows_of_sorted (prediction : list pred_row) v p :
  p ∈ rows_of (sorted prediction) v ↔ p ∈ prediction ∧ video_id p = v.
Proof.
  rewrite rows_of_sorted_Permutation. unfold rows_of.
  rewrite (list_elem_of_filter (λ q, video_id q = v)). tauto.
Qed.

Lemma rows_of_sorted_lookup (prediction : list pred_row) v i j p q :
  i ≤ j → rows_of (sorted prediction) v !! i = Some p →
  rows_of (sorted prediction) v !! j = Some q → (score q <= score p)%Q.
Proof.
  intros Hij Hi Hj. pose proof (lookup_lt_Some _ _ _ Hi) as Hil.
  pose proof (lookup_lt_Some _ _ _ Hj) as Hjl.
  set (R := rows_of (sorted prediction) v) in *.
  eapply (ascending_lookup score (reverse R) (length R - S j) (length R - S i));
    [apply rows_of_sorted_descending|lia|..].
  - rewrite reverse_lookup by lia. rewrite <- Hj. f_equal. lia.
  - rewrite reverse_lookup by lia. rewrite <- Hi. f_equal. lia.
Qed.

Lemma forallb_Permutation {A} (f : A → bool) l l' :
  l ≡ₚ l' → forallb f l = forallb f l'.
Proof.
  induction 1 as [|x l l' _ IH|x y l|l l' l'' _ IH1 _ IH2]; simpl.
  - done.
  - by rewrite IH.
  - by destruct (f x), (f y).
  - by rewrite IH1.
Qed.

Lemma scoring_check_Permutation ground_truth (l l' : list pred_row) :
  l ≡ₚ l' → scoring_check ground_truth l = scoring_check ground_truth l'.
Proof. intros Hl. unfold scoring_check. by rewrite (forallb_Permutation _ l l'). Qed.

Lemma mapR_pred_entry ground_truth (l : list pred_row) :
  mapR (pred_entry ground_truth) l =
  (_ <-- scoring_check ground_truth l ;; Ok (entry_of ground_truth <$> l)).
Proof.
  induction l as [|p l IH]; [done|].
  cbn [mapR]. unfold scoring_check in *. cbn [forallb].
  destruct (pred_entry ground_truth p) as [e|oe] eqn:Hp.
  - apply pred_entry_Raise in Hp as ->. done.
  - rewrite IH. cbn [bind andb fmap list_fmap].
    destruct (forallb _ l); [|done]. simpl.
    by rewrite (pred_entry_entry_of _ _ _ Hp).
Qed.

Lemma selection_check_Ok ground_truth (prediction : list pred_row) us :
  selection_check ground_truth prediction = Ok us →
  Forall (λ g, rows_of prediction (gt_video_id g) ≠ []) ground_truth.
Proof.
  unfold selection_check. revert us.
  induction ground_truth as [|g gt IH]; intros us; [constructor|].
  cbn [mapR]. destruct (rows_of prediction (gt_video_id g)) eqn:Hg; [discriminate|].
  cbn [bind]. destruct (mapR _ gt) as [e|us']; [discriminate|].
  intros _. constructor; [by rewrite Hg|by eapply IH].
Qed.

(** The winner selection raises exactly when a ground-truth row has no
    prediction, with the [KeyError] of the first such row. *)
Lemma mapR_get_group_sorted ground_truth (prediction : list pred_row) :
  match selection_check ground_truth prediction with
  | inl e =>
      mapR (λ g, get_group video_id (sorted prediction) (gt_video_id g)) ground_truth
      = Raise e
  | inr _ =>
      ∃ grps,
        mapR (λ g, get_group video_id (sorted prediction) (gt_video_id g)) ground_truth
        = Ok grps
  end.
Proof.
  unfold selection_check.
  induction ground_truth as [|g gt IH]; [by eexists|].
  cbn [mapR].
  destruct (get_group video_id (sorted prediction) (gt_video_id g)) as [e|grp] eqn:Hg.
  - apply get_group_Raise in Hg as [-> Hg].
    change (filter _ (sorted prediction)) with (rows_of (sorted prediction) (gt_video_id g)) in Hg.
    apply (proj1 (rows_of_sorted_nil _ _)) in Hg. by rewrite Hg.
  - apply get_group_rows in Hg as (Hne & Hrows & _).
    change (filter _ (sorted prediction)) with (rows_of (sorted prediction) (gt_video_id g)) in Hrows.
    destruct (rows_of prediction (gt_video_id g)) as [|p ps] eqn:Hr.
    { apply (proj2 (rows_of_sorted_nil _ _)) in Hr. rewrite Hr in Hrows.
      by destruct grp. }
    cbn [bind]. destruct (mapR _ gt) as [e|us].
    + by rewrite IH.
    + destruct IH as [grps ->]. by eexists.
Qed.

Lemma group_of_rows (prediction : list pred_row) g :
  (group_of prediction g).*2 = rows_of prediction (gt_video_id g) ∧
  Forall (λ ir, prediction !! ir.1 = Some ir.2) (group_of prediction g).
Proof.
  unfold group_of, rows_of. split.
  - exact (filter_enumerate_from (λ r, video_id r = gt_video_id g) 0 prediction).
  - apply Forall_forall. intros [j x] [_ Hjx]%list_elem_of_filter.
    apply elem_of_enumerate_from in Hjx as [_ Hjx]. simpl.
    by rewrite Nat.sub_0_r in Hjx.
Qed.

(** The keys compared by lines 190-193 are the keys of the rows of the
    video. *)
Lemma max_idx_keys mode ground_truth (prediction : list pred_row) ths tidx thr g :
  ths !! tidx = Some thr →
  let a := arrays_of ths (entry_of ground_truth <$> prediction) in
  let grp := group_of prediction g in
  max_idx mode a tidx grp =
  nth (argmax (key_of mode ground_truth <$> rows_of prediction (gt_video_id g))) grp.*1 0.
Proof.
  intros Ht a grp. unfold max_idx. fold grp.
  destruct (group_of_rows prediction g) as [Hrows Hgrp]. fold grp in Hrows, Hgrp.
  rewrite <- Hrows. f_equal. destruct mode; simpl; f_equal.
  - rewrite <- !list_fmap_compose. apply list_fmap_ext. intros k [i p] Hk. simpl.
    eapply Forall_lookup_1 in Hgrp; [|exact Hk]. simpl in Hgrp.
    apply (get2_mid_matrix cell_st _ _ _ _ _ _ Ht).
    by rewrite list_lookup_fmap, Hgrp.
  - by rewrite <- !list_fmap_compose.
Qed.

(** The value picked from an array for a ground-truth row that has
    predictions is the cell of the winner of its video. *)
Lemma picked_cell mode ground_truth (prediction : list pred_row)
    (c : Q → option entry → Q) ths tidx thr g :
  ths !! tidx = Some thr →
  rows_of prediction (gt_video_id g) ≠ [] →
  picked mode prediction (arrays_of ths (entry_of ground_truth <$> prediction))
         (mid_matrix c ths (entry_of ground_truth <$> prediction) 0) tidx g
  = c thr (winner_entry mode ground_truth (rows_of prediction (gt_video_id g))).
Proof.
  intros Ht Hne. unfold picked. rewrite (max_idx_keys _ _ _ _ _ _ _ Ht).
  destruct (group_of_rows prediction g) as [Hrows Hgrp].
  set (grp := group_of prediction g) in *.
  set (rows := rows_of prediction (gt_video_id g)) in *.
  set (k := argmax (key_of mode ground_truth <$> rows)).
  assert (k < length grp) as Hk.
  { rewrite <- (length_fmap snd), Hrows, <- (length_fmap (key_of mode ground_truth)).
    apply argmax_lt_length. by destruct rows. }
  destruct (lookup_lt_is_Some_2 grp k Hk) as [[i p] Hip].
  eapply Forall_lookup_1 in Hgrp; [|exact Hip]. simpl in Hgrp.
  rewrite (nth_lookup_Some _ _ _ i) by by rewrite list_lookup_fmap, Hip.
  rewrite (get2_mid_matrix c _ _ _ _ _ (entry_of ground_truth p) Ht)
    by by rewrite list_lookup_fmap, Hgrp.
  unfold winner_entry, winner. fold k.
  by rewrite <- Hrows, list_lookup_fmap, Hip.
Qed.

(** ** The aggregator as a function of the winners *)
Theorem compute_tracking_metrics_spec ground_truth prediction ths mode :
  prediction ≠ [] →
  compute_tracking_metrics ground_truth prediction ths mode =
  (_ <-- scoring_check ground_truth prediction ;;
   _ <-- selection_check ground_truth prediction ;;
   Ok (robustness_vector mode ground_truth prediction ths)).
Proof.
  intros Hne. unfold compute_tracking_metrics.
  destruct prediction as [|p0 l]; [done|]. clear Hne.
  set (prediction := p0 :: l).
  rewrite loc_sort_idx, bind_Ok, scoring_pass_arrays, mapR_pred_entry.
  rewrite (scoring_check_Permutation _ _ _ (sorted_Permutation prediction)).
  destruct (scoring_check ground_truth prediction) as [e|[]]; [done|].
  cbn [bind]. rewrite !bind_Ok, winner_selection_finals.
  pose proof (mapR_get_group_sorted ground_truth prediction) as Hsel.
  destruct (selection_check ground_truth prediction) as [e|us] eqn:Hcheck.
  { by rewrite Hsel. }
  destruct Hsel as [grps ->]. rewrite !bind_Ok. cbn [bind]. f_equal.
  apply selection_check_Ok in Hcheck.
  rewrite aggregation_vector. unfold robustness_vector.
  apply fmap_enumerate_from. intros tidx thr Ht. cbn [fst Nat.add].
  unfold finals_of. cbn [final_track_acc_count final_track_total_count].
  rewrite (nth_final_col (picked mode (sorted prediction) _ _) ths _ tidx thr Ht).
  rewrite (nth_final_col (picked mode (sorted prediction) _ _) ths _ tidx thr Ht).
  f_equal.
  - apply list_fmap_ext. intros i g Hg.
    eapply Forall_lookup_1 in Hcheck; [|exact Hg]. simpl in Hcheck.
    unfold arrays_of at 2, arrays_mid. cbn [track_acc_count].
    rewrite (picked_cell mode ground_truth (sorted prediction) cell_acc ths tidx thr g Ht);
      [done|]. by rewrite rows_of_sorted_nil.
  - apply list_fmap_ext. intros i g Hg.
    eapply Forall_lookup_1 in Hcheck; [|exact Hg]. simpl in Hcheck.
    unfold arrays_of at 2, arrays_mid. cbn [track_total_count].
    rewrite (picked_cell mode ground_truth (sorted prediction) cell_tot ths tidx thr g Ht);
      [done|]. by rewrite rows_of_sorted_nil.
Qed.

End Aggregation.

(** * The claims *)

Section Claims.
Context `{Collaborators, Argsort}.

(** C4. With an empty prediction frame the aggregator returns, for every
    ground truth and every threshold grid, a vector of zeros with one entry
    per threshold; it does not raise, and the result does not depend on the
    ground truth. *)
Theorem empty_prediction_zero_vector (ground_truth : list gt_row)
    (iou_thresholds : list Q) (mode : Mode) :
  compute_tracking_metrics ground_truth [] iou_thresholds mode
  = Ok (replicate (length iou_thresholds) 0%Q).
Proof. reflexivity. Qed.


Lemma get2_st_iou ths es tidx thr i :
  ths !! tidx = Some thr →
  get2 (st_iou (arrays_of ths es)) tidx i = nth i (cell_st 0 <$> es) 0%Q.
Proof.
  intros Ht. unfold get2, arrays_of, arrays_mid, mid_matrix. cbn [st_iou].
  rewrite (nth_lookup_Some _ _ _ ((cell_st thr <$> es) ++ replicate 0 0%Q))
    by by rewrite list_lookup_fmap, Ht.
  cbn [replicate]. by rewrite app_nil_r.
Qed.

(** C10. In mode [take_max_stiou] the winner of a video does not depend on
    the threshold: after the scoring pass the whole-track IoU stored for a
    prediction is the same in every threshold row, so lines 190-194 pick the
    same index at any two thresholds of the grid. *)
Theorem stiou_winner_threshold_independent (ground_truth : list gt_row)
    (prediction frame : list pred_row) (iou_thresholds : list Q) (a : arrays)
    (t1 t2 : nat) :
  loc prediction (sort_idx prediction) = Ok frame →
  scoring_pass ground_truth frame iou_thresholds = Ok a →
  t1 < length iou_thresholds → t2 < length iou_thresholds →
  (∀ i, get2 (st_iou a) t1 i = get2 (st_iou a) t2 i) ∧
  (∀ g grp, get_group video_id frame (gt_video_id g) = Ok grp →
            max_idx take_max_stiou a t1 grp = max_idx take_max_stiou a t2 grp).
Proof.
  intros _ Ha Ht1 Ht2. rewrite scoring_pass_arrays in Ha.
  destruct (mapR _ frame) as [e|es]; [discriminate|]. injection Ha as <-.
  destruct (lookup_lt_is_Some_2 _ _ Ht1) as [thr1 Hthr1].
  destruct (lookup_lt_is_Some_2 _ _ Ht2) as [thr2 Hthr2].
  assert (∀ i, get2 (st_iou (arrays_of iou_thresholds es)) t1 i
               = get2 (st_iou (arrays_of iou_thresholds es)) t2 i) as Hcell.
  { intros i. by rewrite (get2_st_iou _ _ _ _ _ Hthr1), (get2_st_iou _ _ _ _ _ Hthr2). }
  split; [done|]. intros g grp _. unfold max_idx. do 2 f_equal.
  apply list_fmap_ext. intros _ i _. apply Hcell.
Qed.

(** The index picked for a video is the label of a row of its group. *)
Lemma max_idx_lookup (frame : list pred_row) mode a tidx v grp :
  get_group video_id frame v = Ok grp →
  ∃ k p, grp !! k = Some (max_idx mode a tidx grp, p) ∧
         frame !! max_idx mode a tidx grp = Some p ∧ video_id p = v.
Proof.
  intros Hg. pose proof (get_group_rows _ _ _ _ Hg) as (Hne & Hrows & Hgrp).
  unfold max_idx.
  set (k := match mode with
            | take_max_stiou => argmax ((λ i, get2 (st_iou a) tidx i) <$> grp.*1)
            | take_max_score => argmax ((λ ir : nat * pred_row, score ir.2) <$> grp)
            end).
  assert (k < length grp) as Hk.
  { unfold k. destruct mode.
    - rewrite <- (length_fmap fst), <- (length_fmap (λ i, get2 (st_iou a) tidx i)).
      apply argmax_lt_length. by destruct grp.
    - rewrite <- (length_fmap (λ ir : nat * pred_row, score ir.2)).
      apply argmax_lt_length. by destruct grp. }
  destruct (lookup_lt_is_Some_2 grp k Hk) as [[i p] Hip].
  rewrite (nth_lookup_Some _ _ _ i) by by rewrite list_lookup_fmap, Hip.
  exists k, p. split; [done|].
  eapply Forall_lookup_1 in Hgrp as Hi; [|exact Hip]. split; [done|].
  assert (p ∈ filter (λ r, video_id r = v) frame) as Hp.
  { rewrite <- Hrows. apply list_elem_of_fmap. exists (i, p). split; [done|].
    by eapply list_elem_of_lookup_2. }
  by apply list_elem_of_filter in Hp as [? ?].
Qed.

(** In mode [take_max_score] the index picked for a video is the head of
    its group: the first row of the video in the frame. *)
Lemma max_score_head (prediction : list pred_row) (a : arrays) tidx v grp :
  get_group video_id (sorted prediction) v = Ok grp →
  ∃ i p rest, grp = (i, p) :: rest ∧ max_idx take_max_score a tidx grp = i ∧
    Forall (λ q, (score q <= score p)%Q) (rows_of (sorted prediction) v).
Proof.
  intros Hg. apply get_group_rows in Hg as (Hne & Hrows & _).
  change (filter _ (sorted prediction)) with (rows_of (sorted prediction) v) in Hrows.
  destruct grp as [|[i p] rest]; [done|]. exists i, p, rest.
  assert (Forall (λ q, (score q <= score p)%Q) (rows_of (sorted prediction) v)) as Hmax.
  { apply Forall_forall. intros q [j Hj]%list_elem_of_lookup.
    eapply (rows_of_sorted_lookup prediction v 0 j); [lia| |done].
    by rewrite <- Hrows. }
  split; [done|]. split; [|done].
  unfold max_idx. rewrite fmap_cons, argmax_head; [done|].
  rewrite <- Hrows, fmap_cons in Hmax. apply Forall_cons in Hmax as [_ Hmax].
  rewrite Forall_fmap in Hmax. rewrite Forall_fmap.
  eapply Forall_impl; [exact Hmax|]. by intros [j q].
Qed.

(** C5, as amended. The frame built by lines 134-135 holds the predictions
    in descending order of score, obtained by reversing an ascending sort
    that is not stable.  In mode [take_max_score] the aggregator picks, for
    every ground-truth row whose video has predictions, the first row of
    that video in the frame, which is a prediction of that video with the
    largest score.  Nothing more is fixed: among several predictions of the
    video with the largest score, the one picked is the one the sort has
    put first. *)
Theorem max_score_winner_has_max_score (prediction frame : list pred_row)
    (a : arrays) (tidx : nat) (g : gt_row) (grp : list (nat * pred_row)) :
  loc prediction (sort_idx prediction) = Ok frame →
  get_group video_id frame (gt_video_id g) = Ok grp →
  frame ≡ₚ prediction ∧ ascending score (reverse frame) ∧
  ∃ i p rest, grp = (i, p) :: rest ∧
    max_idx take_max_score a tidx grp = i ∧ frame !! i = Some p ∧
    p ∈ prediction ∧ video_id p = gt_video_id g ∧
    ∀ q, q ∈ prediction → video_id q = gt_video_id g → (score q <= score p)%Q.
Proof.
  rewrite loc_sort_idx. intros [= <-] Hg.
  split; [apply sorted_Permutation|]. split; [apply sorted_descending|].
  destruct (max_score_head prediction a tidx _ _ Hg) as (i & p & rest & -> & Hi & Hmax).
  destruct (max_idx_lookup _ take_max_score a tidx _ _ Hg) as (k & p' & Hk & Hp & Hv).
  rewrite Hi in Hk, Hp.
  apply get_group_rows in Hg as (_ & Hrows & Hgrp).
  apply Forall_inv in Hgrp. simpl in Hgrp. assert (p' = p) as -> by congruence.
  exists i, p, rest. repeat (split; [done|]).
  assert (p ∈ sorted prediction) as Hin by by eapply list_elem_of_lookup_2.
  rewrite sorted_Permutation in Hin. split; [done|]. split; [done|].
  intros q Hq Hqv. eapply Forall_forall in Hmax; [exact Hmax|].
  by apply elem_of_rows_of_sorted.
Qed.

Lemma rows_of_nil (prediction : list pred_row) v :
  rows_of prediction v = [] ↔ Forall (λ p, video_id p ≠ v) prediction.
Proof.
  unfold rows_of. split.
  - intros Hr. apply Forall_forall. intros p Hp Hv.
    by apply (filter_nil_not_elem_of _ _ p Hr Hv).
  - intros Hall. induction Hall as [|p l Hp _ IH]; [done|].
    by rewrite filter_cons_False.
Qed.

Lemma selection_check_Raise ground_truth (prediction : list pred_row) e :
  selection_check ground_truth prediction = Raise e →
  ∃ g, g ∈ ground_truth ∧ e = KeyError (gt_video_id g) ∧
       rows_of prediction (gt_video_id g) = [].
Proof.
  unfold selection_check.
  induction ground_truth as [|g gt IH]; [discriminate|]. cbn [mapR].
  destruct (rows_of prediction (gt_video_id g)) eqn:Hg.
  - intros [= <-]. exists g. split; [by left|done].
  - cbn [bind]. destruct (mapR _ gt) as [e'|us]; [|discriminate].
    intros [= <-]. destruct IH as (g' & Hin & He & Hr); [done|].
    exists g'. split; [by right|done].
Qed.

Lemma selection_check_missing ground_truth (prediction : list pred_row) g :
  g ∈ ground_truth → rows_of prediction (gt_video_id g) = [] →
  ∃ e, selection_check ground_truth prediction = Raise e.
Proof.
  unfold selection_check. intros Hin Hr.
  induction ground_truth as [|g' gt IH]; [by apply elem_of_nil in Hin|].
  cbn [mapR]. apply elem_of_cons in Hin as [<-|Hin].
  - rewrite Hr. by eexists.
  - destruct (rows_of prediction (gt_video_id g')); [by eexists|].
    cbn [bind]. destruct (IH Hin) as [e ->]. by eexists.
Qed.

(** C2. When the prediction frame is not empty and some ground-truth row
    has no prediction for its video, the aggregator raises; and whenever the
    scoring pass has gone through, the exception is the [KeyError] raised by
    [get_group] in the winner selection for such a row, which nothing
    catches. *)
Theorem missing_predictions_raise (ground_truth : list gt_row)
    (prediction : list pred_row) (iou_thresholds : list Q) (mode : Mode) :
  prediction ≠ [] →
  (∃ g, g ∈ ground_truth ∧ Forall (λ p, video_id p ≠ gt_video_id g) prediction) →
  ∃ e, compute_tracking_metrics ground_truth prediction iou_thresholds mode = Raise e ∧
    ∀ frame a,
      loc prediction (sort_idx prediction) = Ok frame →
      scoring_pass ground_truth frame iou_thresholds = Ok a →
      ∃ g, g ∈ ground_truth ∧
           Forall (λ p, video_id p ≠ gt_video_id g) prediction ∧
           winner_selection mode ground_truth frame iou_thresholds a
             = Raise (KeyError (gt_video_id g)) ∧
           e = KeyError (gt_video_id g).
Proof.
  intros Hne (g & Hin & Hg). apply rows_of_nil in Hg.
  destruct (selection_check_missing _ _ _ Hin Hg) as [e He].
  rewrite compute_tracking_metrics_spec by done.
  destruct (scoring_check ground_truth prediction) as [e'|[]] eqn:Hsc.
  - exists e'. split; [done|]. intros frame a. rewrite loc_sort_idx. intros [= <-].
    rewrite scoring_pass_arrays, mapR_pred_entry.
    rewrite (scoring_check_Permutation _ _ _ (sorted_Permutation prediction)), Hsc.
    discriminate.
  - exists e. rewrite He. split; [done|].
    intros frame a. rewrite loc_sort_idx. intros [= <-] _.
    destruct (selection_check_Raise _ _ _ He) as (g' & Hin' & -> & Hr).
    exists g'. split; [done|]. split; [by apply rows_of_nil|]. split; [|done].
    rewrite winner_selection_finals.
    pose proof (mapR_get_group_sorted ground_truth prediction) as Hsel.
    rewrite He in Hsel. by rewrite Hsel.
Qed.

Lemma selection_check_ext ground_truth (l l' : list pred_row) :
  (∀ g, g ∈ ground_truth →
     rows_of l (gt_video_id g) = [] ↔ rows_of l' (gt_video_id g) = []) →
  selection_check ground_truth l = selection_check ground_truth l'.
Proof.
  intros Hrows. unfold selection_check. apply mapR_ext_in. intros g Hg.
  specialize (Hrows g Hg).
  destruct (rows_of l (gt_video_id g)), (rows_of l' (gt_video_id g)); try done.
  - pose proof (proj1 Hrows eq_refl). discriminate.
  - pose proof (proj2 Hrows eq_refl). discriminate.
Qed.

Lemma robustness_vector_winners mode ground_truth (l l' : list pred_row) ths :
  (∀ g, g ∈ ground_truth →
     winner_entry mode ground_truth (rows_of (sorted l) (gt_video_id g))
     = winner_entry mode ground_truth (rows_of (sorted l') (gt_video_id g))) →
  robustness_vector mode ground_truth l ths = robustness_vector mode ground_truth l' ths.
Proof.
  intros Hw. unfold robustness_vector. apply list_fmap_ext. intros _ thr _.
  f_equal; apply list_fmap_ext; intros i g Hg;
    by rewrite Hw by by eapply list_elem_of_lookup_2.
Qed.

(** Without ties a descending order of given rows is unique. *)
Lemma descending_unique (R1 R2 : list pred_row) :
  ascending score (reverse R1) → ascending score (reverse R2) →
  R1 ≡ₚ R2 → no_tie R1 → R1 = R2.
Proof.
  intros H1 H2 Hperm Htie.
  rewrite <- (reverse_involutive R1), <- (reverse_involutive R2). f_equal.
  eapply StronglySorted_unique_strong; [|exact H1|exact H2|].
  - intros x y Hx Hy Hxy Hyx. rewrite elem_of_reverse in Hx, Hy.
    apply Htie; [done|by rewrite Hperm|]. by apply Qle_antisym.
  - by rewrite !reverse_Permutation.
Qed.

Lemma no_tie_Permutation (R1 R2 : list pred_row) : R1 ≡ₚ R2 → no_tie R1 → no_tie R2.
Proof. intros Hperm Htie x y Hx Hy. apply Htie; by rewrite Hperm. Qed.

(** Two frames that hold the same rows for a video, none of them tied,
    hold them in the same order once sorted. *)
Lemma rows_of_sorted_agree (l l' : list pred_row) v :
  rows_of l v ≡ₚ rows_of l' v → no_tie (rows_of l v) →
  rows_of (sorted l) v = rows_of (sorted l') v.
Proof.
  intros Hperm Htie. apply descending_unique; try apply rows_of_sorted_descending.
  - by rewrite !rows_of_sorted_Permutation.
  - eapply no_tie_Permutation; [|exact Htie]. symmetry. apply rows_of_sorted_Permutation.
Qed.

Lemma frames_agree mode ground_truth (l l' : list pred_row) ths :
  l ≠ [] → l' ≠ [] →
  scoring_check ground_truth l = scoring_check ground_truth l' →
  (∀ g, g ∈ ground_truth →
     rows_of l (gt_video_id g) ≡ₚ rows_of l' (gt_video_id g) ∧
     no_tie (rows_of l (gt_video_id g))) →
  compute_tracking_metrics ground_truth l ths mode
  = compute_tracking_metrics ground_truth l' ths mode.
Proof.
  intros Hl Hl' Hsc Hrows. rewrite !compute_tracking_metrics_spec by done.
  rewrite Hsc, (selection_check_ext ground_truth l l').
  2:{ intros g Hg. destruct (Hrows g Hg) as [Hperm _].
      rewrite <- !Permutation_nil_r. by rewrite Hperm. }
  rewrite (robustness_vector_winners mode ground_truth l l'); [done|].
  intros g Hg. destruct (Hrows g Hg) as [Hperm Htie].
  by rewrite (rows_of_sorted_agree l l').
Qed.

Lemma false_positive_entry ground_truth (p : pred_row) :
  Forall (λ g, gt_video_id g ≠ video_id p) ground_truth →
  pred_entry ground_truth p = Ok None.
Proof.
  intros Hfp. unfold pred_entry.
  destruct (get_group _ _ _) as [e|grp] eqn:Hg; [done|].
  apply get_group_rows in Hg as (Hne & Hrows & _).
  destruct grp as [|[i g] grp]; [done|]. simpl in Hrows.
  assert (g ∈ filter (λ r, gt_video_id r = video_id p) ground_truth) as Hin
    by (rewrite <- Hrows; by left).
  apply list_elem_of_filter in Hin as [Hv Hin].
  by eapply Forall_forall in Hfp.
Qed.

(** C3. A prediction [p] whose video has no ground-truth row is skipped.
    Its iteration of the scoring pass raises nothing and leaves the four
    arrays as they are.  The winner selection never picks it: the index it
    picks for a ground-truth row is that of a prediction of the video of the
    row, so no value added to a numerator or a denominator comes from [p].
    And when no two predictions of a ground-truth video tie in score, the
    aggregator returns what it returns without [p], for every grid and in
    both modes.  (Set aside there is the frame that holds nothing else while
    there is ground truth: its ground-truth rows have no prediction at
    all.  With ties the result can differ, because the sort may order the
    tied rows differently in the two frames.) *)
Theorem false_positive_skipped (ground_truth : list gt_row)
    (l1 l2 : list pred_row) (p : pred_row) (iou_thresholds : list Q) (mode : Mode) :
  Forall (λ g, gt_video_id g ≠ video_id p) ground_truth →
  (∀ a idx, scoring_step ground_truth iou_thresholds a (idx, p) = Ok a) ∧
  (∀ frame a tidx g grp,
     loc (l1 ++ p :: l2) (sort_idx (l1 ++ p :: l2)) = Ok frame →
     g ∈ ground_truth →
     get_group video_id frame (gt_video_id g) = Ok grp →
     ∃ q, frame !! max_idx mode a tidx grp = Some q ∧
          video_id q = gt_video_id g ∧ q ≠ p) ∧
  ((l1 ++ l2 = [] → ground_truth = []) →
   (∀ g, g ∈ ground_truth → no_tie (rows_of (l1 ++ l2) (gt_video_id g))) →
   compute_tracking_metrics ground_truth (l1 ++ p :: l2) iou_thresholds mode
   = compute_tracking_metrics ground_truth (l1 ++ l2) iou_thresholds mode).
Proof.
  intros Hfp. pose proof (false_positive_entry _ _ Hfp) as Hp.
  split; [|split].
  { intros a idx. by rewrite scoring_step_entry, Hp. }
  { intros frame a tidx g grp _ Hg Hgrp.
    destruct (max_idx_lookup _ mode a tidx _ _ Hgrp) as (k & q & _ & Hq & Hv).
    exists q. split; [done|]. split; [done|]. intros ->.
    by eapply Forall_forall in Hfp. }
  intros Hne Htie.
  assert (scoring_check ground_truth (l1 ++ p :: l2)
          = scoring_check ground_truth (l1 ++ l2)) as Hsc.
  { unfold scoring_check. rewrite !forallb_app. cbn [forallb]. by rewrite Hp. }
  destruct (decide (l1 ++ l2 = [])) as [Hnil|Hnil].
  - rewrite (compute_tracking_metrics_spec _ (l1 ++ p :: l2)) by by destruct l1.
    rewrite Hsc, Hnil, (Hne Hnil). cbn. f_equal. by apply const_fmap.
  - apply frames_agree; [by destruct l1|done|done|].
    intros g Hg.
    assert (rows_of (l1 ++ p :: l2) (gt_video_id g) = rows_of (l1 ++ l2) (gt_video_id g))
      as ->; [|by split; [|apply Htie]].
    unfold rows_of. rewrite !filter_app, filter_cons_False; [done|].
    eapply Forall_forall in Hfp; [|exact Hg]. done.
Qed.

End Claims.

Section Bounds.
Context `{Collaborators, Argsort}.

Lemma np_sum_mono l l' : Forall2 Qle l l' → (np_sum l <= np_sum l')%Q.
Proof.
  induction 1 as [|x y l l' Hxy _ IH]; simpl; [apply Qle_refl|].
  by apply Qplus_le_compat.
Qed.

Lemma np_sum_nonneg l : Forall (Qle 0) l → (0 <= np_sum l)%Q.
Proof.
  induction 1 as [|x l Hx _ IH]; simpl; [apply Qle_refl|]. lra.
Qed.

Lemma count_nonzero_cons b mask :
  count_nonzero (b :: mask) = (if b then 1 else 0) + count_nonzero mask.
Proof.
  unfold count_nonzero. rewrite filter_cons. by destruct b.
Qed.

Lemma count_nonzero_length mask : count_nonzero mask ≤ length mask.
Proof. apply length_filter. Qed.

Lemma count_nonzero_mono (t1 t2 : Q) (vs : list Q) :
  (t1 <= t2)%Q →
  count_nonzero ((λ v, Qle_bool t2 v) <$> vs) ≤ count_nonzero ((λ v, Qle_bool t1 v) <$> vs).
Proof.
  intros Ht. induction vs as [|v vs IH]; [done|].
  rewrite !fmap_cons, !count_nonzero_cons.
  destruct (Qle_bool t2 v) eqn:H2; [|lia].
  assert (Qle_bool t1 v = true) as ->; [|lia].
  apply Qle_bool_iff in H2. apply Qle_bool_iff. by eapply Qle_trans.
Qed.

Lemma cell_acc_mono (t1 t2 : Q) oe :
  (t1 <= t2)%Q → (cell_acc t2 oe <= cell_acc t1 oe)%Q.
Proof.
  intros Ht. destruct oe as [e|]; simpl; [|apply Qle_refl].
  rewrite <- Zle_Qle. apply Nat2Z.inj_le. by apply count_nonzero_mono.
Qed.

Lemma cell_acc_nonneg thr oe : (0 <= cell_acc thr oe)%Q.
Proof.
  destruct oe as [e|]; simpl; [|apply Qle_refl].
  change 0%Q with (inject_Z 0). rewrite <- Zle_Qle. lia.
Qed.

Lemma robustness_of_mono acc1 acc2 total :
  (np_sum acc2 <= np_sum acc1)%Q →
  (robustness_of acc2 total <= robustness_of acc1 total)%Q.
Proof.
  intros Hacc. unfold robustness_of.
  destruct (Qltb 0 (np_sum total)) eqn:Ht; [|apply Qle_refl].
  apply Qltb_lt in Ht. unfold Qdiv. apply Qmult_le_compat_r.
  - lra.
  - apply Qinv_le_0_compat. lra.
Qed.

Lemma robustness_of_bounds acc total :
  (0 <= np_sum acc)%Q → (np_sum acc <= np_sum total)%Q →
  (0 <= robustness_of acc total)%Q ∧ (robustness_of acc total <= 100)%Q.
Proof.
  intros Hacc Hle. unfold robustness_of.
  destruct (Qltb 0 (np_sum total)) eqn:Ht; [|split; [apply Qle_refl|done]].
  apply Qltb_lt in Ht. split.
  - apply Qle_shift_div_l; [done|]. lra.
  - apply Qle_shift_div_r; [done|]. lra.
Qed.

Lemma compute_tracking_metrics_length ground_truth prediction ths mode r :
  compute_tracking_metrics ground_truth prediction ths mode = Ok r →
  length r = length ths.
Proof.
  destruct prediction as [|p l].
  - intros [= <-]. by rewrite length_replicate.
  - rewrite compute_tracking_metrics_spec by done.
    destruct (scoring_check _ _); [discriminate|].
    destruct (selection_check _ _); [discriminate|].
    intros [= <-]. unfold robustness_vector. by rewrite length_fmap.
Qed.

(** C6. For fixed inputs the robustness does not grow with the threshold:
    at two positions of the grid whose thresholds satisfy [t1 <= t2], the
    value returned for [t1] is at least the value returned for [t2]. *)
Theorem robustness_monotone (ground_truth : list gt_row) (prediction : list pred_row)
    (iou_thresholds : list Q) (mode : Mode) (r : list Q) (i j : nat) (t1 t2 : Q) :
  compute_tracking_metrics ground_truth prediction iou_thresholds mode = Ok r →
  iou_thresholds !! i = Some t1 → iou_thresholds !! j = Some t2 →
  (t1 <= t2)%Q →
  ∃ r1 r2, r !! i = Some r1 ∧ r !! j = Some r2 ∧ (r2 <= r1)%Q.
Proof.
  intros Hr Hi Hj Ht. destruct prediction as [|p l].
  - injection Hr as <-. exists 0%Q, 0%Q.
    rewrite !lookup_replicate_2 by by eapply lookup_lt_Some. done.
  - rewrite compute_tracking_metrics_spec in Hr by done.
    destruct (scoring_check _ _); [discriminate|].
    destruct (selection_check _ _); [discriminate|].
    injection Hr as <-. unfold robustness_vector.
    rewrite !list_lookup_fmap, Hi, Hj. simpl. eexists _, _.
    split; [done|]. split; [done|].
    apply robustness_of_mono, np_sum_mono, Forall2_fmap, Forall_Forall2_diag.
    apply Forall_forall. intros g _. by apply cell_acc_mono.
Qed.

Lemma entry_of_Some ground_truth (p : pred_row) e :
  entry_of ground_truth p = Some e → pred_entry ground_truth p = Ok (Some e).
Proof. unfold entry_of. destruct (pred_entry _ _); [discriminate|]. by intros ->. Qed.

Lemma pred_entry_within_length ground_truth (p : pred_row) e :
  matched_within_length ground_truth p →
  pred_entry ground_truth p = Ok (Some e) →
  (Z.of_nat (length (e_matches e)) ≤ e_length e)%Z.
Proof.
  unfold matched_within_length, pred_entry. intros Hp.
  destruct (get_group _ _ _) as [|this_gt]; [discriminate|].
  destruct (first (spatio_temporal_iou _ _)) as [|s]; [discriminate|].
  destruct (first (spatio_temporal_iou_matches _ _)) as [|m] eqn:Hm; [discriminate|].
  destruct (first (_ <$> this_gt)) as [|gt0] eqn:Hg; [discriminate|].
  intros [= <-]. simpl. by eapply Hp.
Qed.

Lemma winner_entry_elem_of mode ground_truth (prediction : list pred_row) v e :
  winner_entry mode ground_truth (rows_of (sorted prediction) v) = Some e →
  ∃ p, p ∈ prediction ∧ video_id p = v ∧ pred_entry ground_truth p = Ok (Some e).
Proof.
  unfold winner_entry, winner.
  destruct (_ !! _) as [p|] eqn:Hp; [|discriminate]. simpl. intros He.
  exists p. apply list_elem_of_lookup_2, elem_of_rows_of_sorted in Hp as [Hp Hv].
  split; [done|]. split; [done|]. by apply entry_of_Some.
Qed.

Lemma winner_cells_bounded mode ground_truth (prediction : list pred_row) thr v :
  Forall (matched_within_length ground_truth) prediction →
  let w := winner_entry mode ground_truth (rows_of (sorted prediction) v) in
  (cell_acc thr w <= cell_tot thr w)%Q.
Proof.
  intros Hall w. destruct w as [e|] eqn:Hw; [|apply Qle_refl].
  apply winner_entry_elem_of in Hw as (p & Hp & _ & He).
  eapply Forall_forall in Hall; [|exact Hp].
  pose proof (pred_entry_within_length _ _ _ Hall He) as Hlen.
  simpl. rewrite <- Zle_Qle.
  pose proof (count_nonzero_length (accurate thr e)) as Hc.
  unfold accurate in Hc at 2. rewrite !length_fmap in Hc. lia.
Qed.

(** C7. When no prediction has more matched frames than the ground-truth
    track of its video is long, every robustness value returned lies in
    [[0, 100]]; and (with or without that contract) the value at a
    threshold is 0 whenever the summed ground-truth frame counts of the
    winners at that threshold are 0. *)
Theorem robustness_bounded (ground_truth : list gt_row) (prediction : list pred_row)
    (iou_thresholds : list Q) (mode : Mode) (r : list Q) :
  Forall (matched_within_length ground_truth) prediction →
  compute_tracking_metrics ground_truth prediction iou_thresholds mode = Ok r →
  Forall (λ x, (0 <= x)%Q ∧ (x <= 100)%Q) r ∧
  ∀ frame a f tidx,
    loc prediction (sort_idx prediction) = Ok frame →
    scoring_pass ground_truth frame iou_thresholds = Ok a →
    winner_selection mode ground_truth frame iou_thresholds a = Ok f →
    tidx < length iou_thresholds →
    (np_sum (nth tidx (final_track_total_count f) []) == 0)%Q →
    r !! tidx = Some 0%Q.
Proof.
  intros Hall Hr. split.
  - destruct prediction as [|p l].
    { injection Hr as <-. apply Forall_replicate. split; [apply Qle_refl|done]. }
    rewrite compute_tracking_metrics_spec in Hr by done.
    destruct (scoring_check _ _); [discriminate|].
    destruct (selection_check _ _); [discriminate|].
    injection Hr as <-. unfold robustness_vector.
    apply Forall_fmap, Forall_forall. intros thr _. simpl.
    apply robustness_of_bounds.
    + apply np_sum_nonneg, Forall_fmap, Forall_forall. intros g _.
      apply cell_acc_nonneg.
    + apply np_sum_mono, Forall2_fmap, Forall_Forall2_diag, Forall_forall.
      intros g _. by apply winner_cells_bounded.
  - intros frame a f tidx Hframe Ha Hf Ht Hzero.
    destruct prediction as [|p l].
    { injection Hr as <-. by apply lookup_replicate_2. }
    unfold compute_tracking_metrics in Hr.
    rewrite Hframe, bind_Ok, Ha, bind_Ok, Hf, bind_Ok in Hr. injection Hr as <-.
    rewrite aggregation_vector.
    destruct (lookup_lt_is_Some_2 _ _ Ht) as [thr Hthr].
    rewrite list_lookup_fmap, enumerate_from_lookup, Hthr. simpl.
    unfold robustness_of.
    assert (Qltb 0 (np_sum (nth tidx (final_track_total_count f) [])) = false) as ->;
      [|done].
    apply Qltb_ge. rewrite Hzero. apply Qle_refl.
Qed.

Lemma first_max_lookup {A} (f : A → Q) (R : list A) p k :
  p ∈ R → (∀ q, q ∈ R → q = p ∨ (f q < f p)%Q) →
  first_max (f <$> R) k →
  R !! k = Some p ∧ ∀ j, j < k → R !! j ≠ Some p.
Proof.
  intros Hp Hmax (x & Hx & Hle & Hlt).
  rewrite list_lookup_fmap in Hx.
  destruct (R !! k) as [q|] eqn:Hq; [|discriminate]. injection Hx as <-.
  assert (q = p) as ->.
  { destruct (Hmax q) as [->|Hqp]; [by eapply list_elem_of_lookup_2|done|].
    rewrite Forall_fmap in Hle. eapply Forall_forall in Hle; [|exact Hp].
    simpl in Hle. lra. }
  split; [done|]. intros j Hj Hjp.
  assert ((f p < f p)%Q); [|lra].
  eapply Forall_forall in Hlt; [exact Hlt|].
  apply elem_of_take. exists j. split; [|done].
  by rewrite list_lookup_fmap, Hjp.
Qed.

Lemma argmax_agree {A} (f g : A → Q) (R : list A) p :
  p ∈ R → (∀ q, q ∈ R → q = p ∨ ((f q < f p)%Q ∧ (g q < g p)%Q)) →
  argmax (f <$> R) = argmax (g <$> R).
Proof.
  intros Hp Hmax.
  assert (R ≠ []) as Hne by (intros ->; by apply elem_of_nil in Hp).
  destruct (first_max_lookup f R p (argmax (f <$> R)) Hp) as [Hf1 Hf2].
  { intros q Hq. destruct (Hmax q Hq) as [->|[? _]]; auto. }
  { apply argmax_first_max. by destruct R. }
  destruct (first_max_lookup g R p (argmax (g <$> R)) Hp) as [Hg1 Hg2].
  { intros q Hq. destruct (Hmax q Hq) as [->|[_ ?]]; auto. }
  { apply argmax_first_max. by destruct R. }
  destruct (Nat.lt_trichotomy (argmax (f <$> R)) (argmax (g <$> R))) as [Hlt|[Heq|Hgt]].
  - by apply Hg2 in Hlt.
  - done.
  - by apply Hf2 in Hgt.
Qed.

Lemma scoring_check_Ok ground_truth (prediction : list pred_row) p :
  scoring_check ground_truth prediction = Ok () → p ∈ prediction →
  ∃ oe, pred_entry ground_truth p = Ok oe.
Proof.
  unfold scoring_check. destruct (forallb _ prediction) eqn:Hall; [|discriminate].
  intros _ Hp. rewrite forallb_forall in Hall.
  specialize (Hall p). rewrite <- list_elem_of_In in Hall. specialize (Hall Hp).
  destruct (pred_entry ground_truth p) as [|oe]; [discriminate|]. by exists oe.
Qed.

Lemma key_of_whole_track_iou ground_truth (p : pred_row) oe :
  pred_entry ground_truth p = Ok oe →
  key_of take_max_stiou ground_truth p = whole_track_iou ground_truth p.
Proof.
  unfold key_of, entry_of, whole_track_iou. intros Hp. rewrite Hp.
  unfold pred_entry in Hp.
  destruct (get_group _ _ _) as [|this_gt]; [by injection Hp as <-|].
  destruct (spatio_temporal_iou _ _) as [|s ?]; [discriminate|]. simpl in Hp.
  destruct (first (spatio_temporal_iou_matches _ _)) as [|m]; [discriminate|].
  destruct (first (_ <$> this_gt)) as [|gt0]; [discriminate|].
  by injection Hp as <-.
Qed.

(** C8. If for every ground-truth row one prediction of its video has both
    a strictly larger score and a strictly larger whole-track IoU than every
    other prediction of that video, the aggregator returns the same result in
    mode [take_max_score] and in mode [take_max_stiou]. *)
Theorem modes_coincide (ground_truth : list gt_row) (prediction : list pred_row)
    (iou_thresholds : list Q) :
  (∀ g, g ∈ ground_truth →
     ∃ p, p ∈ prediction ∧ video_id p = gt_video_id g ∧
       ∀ q, q ∈ prediction → video_id q = gt_video_id g →
         q = p ∨ ((score q < score p)%Q ∧
                  (whole_track_iou ground_truth q < whole_track_iou ground_truth p)%Q)) →
  compute_tracking_metrics ground_truth prediction iou_thresholds take_max_score
  = compute_tracking_metrics ground_truth prediction iou_thresholds take_max_stiou.
Proof.
  intros Hbest. destruct prediction as [|p0 l]; [done|].
  set (prediction := p0 :: l) in *.
  rewrite !compute_tracking_metrics_spec by done.
  destruct (scoring_check ground_truth prediction) as [|[]] eqn:Hsc; [done|].
  cbn [bind]. destruct (selection_check ground_truth prediction); [done|].
  cbn [bind]. f_equal. unfold robustness_vector.
  assert (∀ g, g ∈ ground_truth →
            winner_entry take_max_score ground_truth
              (rows_of (sorted prediction) (gt_video_id g))
            = winner_entry take_max_stiou ground_truth
                (rows_of (sorted prediction) (gt_video_id g))) as Hw.
  { intros g Hg. destruct (Hbest g Hg) as (p & Hp & Hv & Hmax).
    unfold winner_entry, winner. do 2 f_equal.
    apply (argmax_agree _ _ _ p).
    - by apply elem_of_rows_of_sorted.
    - intros q Hq. apply elem_of_rows_of_sorted in Hq as [Hq Hqv].
      destruct (Hmax q Hq Hqv) as [->|[Hs Hi]]; [by left|right].
      split; [done|].
      destruct (scoring_check_Ok _ _ q Hsc Hq) as [oq Hoq].
      destruct (scoring_check_Ok _ _ p Hsc Hp) as [op Hop].
      by rewrite (key_of_whole_track_iou _ _ _ Hoq), (key_of_whole_track_iou _ _ _ Hop). }
  apply list_fmap_ext. intros _ thr _.
  f_equal; apply list_fmap_ext; intros i g Hg;
    by rewrite Hw by by eapply list_elem_of_lookup_2.
Qed.

End Bounds.

Section Scenario.
Context `{Collaborators, Argsort}.

Lemma first_cons_inv {A} (l : list A) x : first l = Ok x → ∃ l', l = x :: l'.
Proof. destruct l as [|y l']; [discriminate|]. intros [= <-]. by eexists. Qed.

(** C1. One video with a ground-truth track of length 10 and two
    predictions: [P1] with score 0.9 and 5 matched frames of IoU 0.6, [P2]
    with score 0.3 and 10 matched frames of IoU 0.8.  At threshold 0.5 the
    aggregator picks [P1] and returns 50 in mode [take_max_score]; when the
    whole-track IoU of [P2] exceeds that of [P1] it picks [P2] and returns
    100 in mode [take_max_stiou]. *)
Theorem two_prediction_scenario (G P1 P2 : ResponseTrack) (s1 s2 : Q)
    (m1 m2 : list (Z * Q)) :
  track_length G = 10%Z →
  first (spatio_temporal_iou P1 [G]) = Ok s1 →
  first (spatio_temporal_iou_matches P1 [G]) = Ok m1 →
  m1.*2 = replicate 5 (6 # 10)%Q →
  first (spatio_temporal_iou P2 [G]) = Ok s2 →
  first (spatio_temporal_iou_matches P2 [G]) = Ok m2 →
  m2.*2 = replicate 10 (8 # 10)%Q →
  let g := {| gt_video_id := 0; gt_response_track := G |} in
  let p1 := {| video_id := 0; response_track := P1; score := 9 # 10 |} in
  let p2 := {| video_id := 0; response_track := P2; score := 3 # 10 |} in
  (selects take_max_score [g] [p1; p2] [1 # 2]%Q 0 g p1 ∧
   ∃ r, compute_tracking_metrics [g] [p1; p2] [1 # 2]%Q take_max_score = Ok [r]
        ∧ (r == 50)%Q) ∧
  ((s1 < s2)%Q →
   selects take_max_stiou [g] [p1; p2] [1 # 2]%Q 0 g p2 ∧
   ∃ r, compute_tracking_metrics [g] [p1; p2] [1 # 2]%Q take_max_stiou = Ok [r]
        ∧ (r == 100)%Q).
Proof.
  intros HG Hs1 Hm1 Hv1 Hs2 Hm2 Hv2 g p1 p2.
  apply first_cons_inv in Hs1 as [? Hs1], Hm1 as [? Hm1].
  apply first_cons_inv in Hs2 as [? Hs2], Hm2 as [? Hm2].
  set (e1 := {| e_stiou := s1; e_matches := m1; e_length := 10 |}).
  set (e2 := {| e_stiou := s2; e_matches := m2; e_length := 10 |}).
  assert (get_group gt_video_id [g] 0 = Ok [(0, g)]) as Hgt by reflexivity.
  assert (pred_entry [g] p1 = Ok (Some e1)) as He1.
  { unfold pred_entry. cbn [video_id p1]. rewrite Hgt. cbn.
    rewrite Hs1, Hm1. cbn. by rewrite HG. }
  assert (pred_entry [g] p2 = Ok (Some e2)) as He2.
  { unfold pred_entry. cbn [video_id p2]. rewrite Hgt. cbn.
    rewrite Hs2, Hm2. cbn. by rewrite HG. }
  assert (sorted [p1; p2] = [p1; p2]) as Hsorted.
  { apply descending_unique; [apply sorted_descending| |apply sorted_Permutation|].
    - repeat constructor. unfold Qle. simpl. lia.
    - eapply no_tie_Permutation; [symmetry; apply sorted_Permutation|].
      intros r1 r2 Hr1 Hr2 Hr.
      apply elem_of_cons in Hr1 as [->|Hr1%list_elem_of_singleton];
        apply elem_of_cons in Hr2 as [->|Hr2%list_elem_of_singleton]; subst;
        try done; revert Hr; unfold Qeq; simpl; lia. }
  assert (loc [p1; p2] (sort_idx [p1; p2]) = Ok [p1; p2]) as Hframe
    by by rewrite loc_sort_idx, Hsorted.
  assert (scoring_pass [g] [p1; p2] [1 # 2]%Q
          = Ok (arrays_of [1 # 2]%Q [Some e1; Some e2])) as Ha.
  { rewrite scoring_pass_arrays. cbn [mapR]. by rewrite He1, He2. }
  assert (get_group video_id [p1; p2] (gt_video_id g) = Ok [(0, p1); (1, p2)])
    as Hgrp by reflexivity.
  assert (scoring_check [g] [p1; p2] = Ok ()) as Hsc.
  { unfold scoring_check. cbn [forallb]. by rewrite He1, He2. }
  assert (selection_check [g] [p1; p2] = Ok [()]) as Hsel by reflexivity.
  assert (rows_of (sorted [p1; p2]) 0 = [p1; p2]) as Hrows by by rewrite Hsorted.
  assert (cell_acc (1 # 2) (Some e1) = inject_Z 5) as Hacc1.
  { unfold cell_acc, accurate, e1. cbn [e_matches]. by rewrite Hv1. }
  assert (cell_acc (1 # 2) (Some e2) = inject_Z 10) as Hacc2.
  { unfold cell_acc, accurate, e2. cbn [e_matches]. by rewrite Hv2. }
  assert (winner_entry take_max_score [g] [p1; p2] = Some e1) as Hw1.
  { unfold winner_entry.
    assert (winner take_max_score [g] [p1; p2] = Some p1) as -> by reflexivity.
    cbn [mbind option_bind]. unfold entry_of. by rewrite He1. }
  assert ((s1 < s2)%Q → winner take_max_stiou [g] [p1; p2] = Some p2) as Hwin2.
  { intros Hlt. unfold winner, key_of, entry_of. cbn [fmap list_fmap].
    rewrite He1, He2. unfold Ok. cbn [cell_st e_stiou e1 e2 argmax argmax_from].
    by rewrite (proj2 (Qltb_lt s1 s2) Hlt). }
  split; [|intros Hlt]; (split;
    [ exists [p1; p2], (arrays_of [1 # 2]%Q [Some e1; Some e2]), [(0, p1); (1, p2)];
      repeat (split; [done|])
    | rewrite compute_tracking_metrics_spec, Hsc, Hsel by done;
      unfold robustness_vector; cbn [fmap list_fmap gt_video_id g];
      rewrite Hrows, !bind_Ok; eexists; (split; [reflexivity|]) ]).
  - reflexivity.
  - rewrite Hw1, Hacc1. reflexivity.
  - unfold max_idx. cbn [fmap list_fmap fst].
    rewrite !(get2_st_iou [1 # 2]%Q _ 0 (1 # 2)%Q) by done.
    cbn [fmap list_fmap nth cell_st e_stiou e1 e2 argmax argmax_from].
    by rewrite (proj2 (Qltb_lt s1 s2) Hlt).
  - assert (winner_entry take_max_stiou [g] [p1; p2] = Some e2) as ->.
    { unfold winner_entry. rewrite (Hwin2 Hlt). cbn [mbind option_bind].
      unfold entry_of. by rewrite He2. }
    rewrite Hacc2. reflexivity.
Qed.

End Scenario.

Section Facade.
Context `{Collaborators, Argsort}.

(** C9, as amended. [evaluate] calls the aggregator once, on the three
    thresholds 0.5, 0.75 and 0.95 of the class attribute; it raises what the
    aggregator raises, and otherwise stores the vector of three values under
    ["% recovery"] and, under the same key, its mean. *)
Theorem evaluate_reporting_grid (self : TrackingMetrics) :
  match compute_tracking_metrics (ground_truth self) (prediction self)
          [1 # 2; 3 # 4; 95 # 100]%Q (mode self) with
  | inl e => evaluate self = Raise e
  | inr r =>
      length r = 3 ∧
      evaluate self =
      Ok {| ap := ap self;
            ground_truth := ground_truth self;
            prediction := prediction self;
            mode := mode self;
            suffix := suffix self;
            ignore_iou_averaging := ignore_iou_averaging self;
            tracking_metrics := Some [("% recovery"%string, r)];
            average_tracking_metrics :=
              Some [("% recovery"%string, (np_sum r / 3)%Q)] |}
  end.
Proof.
  unfold evaluate, iou_thresholds.
  destruct (compute_tracking_metrics _ _ _ _) as [e|r] eqn:Hr; [done|].
  apply compute_tracking_metrics_length in Hr. split; [done|].
  cbn [bind fmap list_fmap fst snd]. unfold np_mean. by rewrite Hr.
Qed.

End Facade.

(** * The claims on the concrete instance

    The tracks and overlap functions are those of [Demo]; [argsort] is the
    insertion sort, unless another sort is named. *)

Section Instances.
Import Demo Sorts.

(** C1 on the concrete tracks. *)
Lemma two_prediction_scenario_witness :
  (selects take_max_score [g0] [row 0 P1; row 0 P2] [1 # 2]%Q 0 g0 (row 0 P1) ∧
   ∃ r, compute_tracking_metrics [g0] [row 0 P1; row 0 P2] [1 # 2]%Q take_max_score
        = Ok [r] ∧ (r == 50)%Q) ∧
  (selects take_max_stiou [g0] [row 0 P1; row 0 P2] [1 # 2]%Q 0 g0 (row 0 P2) ∧
   ∃ r, compute_tracking_metrics [g0] [row 0 P1; row 0 P2] [1 # 2]%Q take_max_stiou
        = Ok [r] ∧ (r == 100)%Q).
Proof.
  destruct (two_prediction_scenario (H:=collaborators) G P1 P2 (3 # 10) (8 # 10)
              (matched 5 (6 # 10)) (matched 10 (8 # 10))) as [Hscore Hstiou];
    try reflexivity.
  split; [exact Hscore|]. apply Hstiou. reflexivity.
Defined.

(** C2 on a frame whose only prediction belongs to another video. *)
Lemma missing_predictions_raise_witness :
  ∃ e, compute_tracking_metrics gt [row 1 P2] [1 # 2]%Q take_max_stiou = Raise e ∧
    ∀ frame a,
      loc [row 1 P2] (sort_idx [row 1 P2]) = Ok frame →
      scoring_pass gt frame [1 # 2]%Q = Ok a →
      ∃ g, g ∈ gt ∧
           Forall (λ p, video_id p ≠ gt_video_id g) [row 1 P2] ∧
           winner_selection take_max_stiou gt frame [1 # 2]%Q a
             = Raise (KeyError (gt_video_id g)) ∧
           e = KeyError (gt_video_id g).
Proof.
  apply (missing_predictions_raise (H:=collaborators) gt [row 1 P2] [1 # 2]%Q take_max_stiou).
  - discriminate.
  - exists g0. split; [left|]. repeat constructor. simpl. discriminate.
Defined.

(** C3 on a frame with one prediction for a video without ground truth,
    which the sort puts last. *)
Lemma false_positive_skipped_witness :
  (∀ a idx, scoring_step gt [1 # 2]%Q a (idx, row 1 P2) = Ok a) ∧
  (∃ q, [row 0 P1; row 1 P2] !! max_idx take_max_score no_arrays 0 [(0, row 0 P1)]
        = Some q ∧
        video_id q = gt_video_id g0 ∧ q ≠ row 1 P2) ∧
  compute_tracking_metrics gt ([row 0 P1] ++ row 1 P2 :: []) [1 # 2]%Q take_max_score
  = compute_tracking_metrics gt ([row 0 P1] ++ []) [1 # 2]%Q take_max_score.
Proof.
  destruct (false_positive_skipped (H:=collaborators) gt [row 0 P1] [] (row 1 P2)
              [1 # 2]%Q take_max_score) as (Hstep & Hpick & Hsame).
  - repeat constructor. simpl. discriminate.
  - split; [exact Hstep|]. split.
    + apply (Hpick [row 0 P1; row 1 P2] no_arrays 0 g0 [(0, row 0 P1)]);
        [reflexivity|left|reflexivity].
    + apply Hsame.
      * discriminate.
      * intros g _ x y [_ Hx]%list_elem_of_filter [_ Hy]%list_elem_of_filter _.
        apply list_elem_of_singleton in Hx, Hy. congruence.
Defined.

(** The condition on ties cannot be dropped.  With a sort whose order
    of equal values depends on the size of the array, a prediction for a
    video without ground truth changes which of two tied predictions comes
    first in the frame, and with it the result. *)
Lemma false_positive_reorders_tied_rows :
  ∃ r1 r2,
    compute_tracking_metrics (H0:=alternating) gt [row 0 P1; row 1 P2; row 0 P3]
      [1 # 2]%Q take_max_score = Ok [r1] ∧
    compute_tracking_metrics (H0:=alternating) gt [row 0 P1; row 0 P3]
      [1 # 2]%Q take_max_score = Ok [r2] ∧
    (r1 == 50)%Q ∧ (r2 == 100)%Q.
Proof. eexists _, _. repeat split; vm_compute; reflexivity. Qed.

(** C5, as stated, fails.  With the insertion sort, which leaves equal
    values in index order, the reversal puts index 1 before index 0: of two
    predictions of one video with the same score the aggregator picks the
    later one. *)
Lemma tie_goes_to_later_prediction :
  sort_idx [row 0 P1; row 0 P3] = [1; 0] ∧
  earliest_max_score (rows_of [row 0 P1; row 0 P3] (gt_video_id g0)) (row 0 P1) ∧
  selects take_max_score gt [row 0 P1; row 0 P3] [1 # 2]%Q 0 g0 (row 0 P3) ∧
  ¬ earliest_max_score (rows_of [row 0 P1; row 0 P3] (gt_video_id g0)) (row 0 P3).
Proof.
  split; [reflexivity|]. split; [|split].
  - exists [], [row 0 P3]. split; [reflexivity|]. split; [constructor|].
    repeat constructor. unfold Qle. simpl. lia.
  - eexists _, _, _. repeat split; reflexivity.
  - intros (l1 & l2 & Heq & H1 & _).
    destruct l1 as [|x l1]; [discriminate|].
    injection Heq as <- Heq.
    apply Forall_inv in H1. revert H1. unfold Qlt. simpl. lia.
Qed.

(** With a sort that leaves equal values in descending index order, the
    same call picks the earlier one; on four scores 0.9, 0.9, 0.1, 0.1 that
    sort leaves the frame as it is. *)
Lemma tie_goes_to_earlier_prediction_otherwise :
  sort_idx (H0:=reversing) [row 0 P1; row 0 P3] = [0; 1] ∧
  selects (H0:=reversing) take_max_score gt [row 0 P1; row 0 P3] [1 # 2]%Q 0 g0
    (row 0 P1) ∧
  sort_idx (H0:=reversing) [row 0 P1; row 0 P3; row 0 P4; row 1 P4] = [0; 1; 2; 3].
Proof.
  split; [reflexivity|]. split; [|reflexivity].
  eexists _, _, _. repeat split; reflexivity.
Qed.

(** C5, as amended, on the same frame. *)
Lemma max_score_winner_has_max_score_witness :
  [row 0 P3; row 0 P1] ≡ₚ [row 0 P1; row 0 P3] ∧
  ascending score (reverse [row 0 P3; row 0 P1]) ∧
  ∃ i p rest, [(0, row 0 P3); (1, row 0 P1)] = (i, p) :: rest ∧
    max_idx take_max_score no_arrays 0 [(0, row 0 P3); (1, row 0 P1)] = i ∧
    [row 0 P3; row 0 P1] !! i = Some p ∧
    p ∈ [row 0 P1; row 0 P3] ∧ video_id p = gt_video_id g0 ∧
    ∀ q, q ∈ [row 0 P1; row 0 P3] → video_id q = gt_video_id g0 →
      (score q <= score p)%Q.
Proof.
  apply (max_score_winner_has_max_score (H:=collaborators) [row 0 P1; row 0 P3]
           [row 0 P3; row 0 P1] no_arrays 0 g0 [(0, row 0 P3); (1, row 0 P1)]);
    reflexivity.
Defined.

(** C6 on the grid 0.5, 0.7. *)
Lemma robustness_monotone_witness :
  ∃ r, compute_tracking_metrics gt [row 0 P1; row 0 P2] [1 # 2; 7 # 10]%Q take_max_score
       = Ok r ∧
    ∃ r1 r2, r !! 0 = Some r1 ∧ r !! 1 = Some r2 ∧ (r2 <= r1)%Q.
Proof.
  eexists. split; [vm_compute; reflexivity|].
  apply (robustness_monotone (H:=collaborators) gt [row 0 P1; row 0 P2] [1 # 2; 7 # 10]%Q take_max_score
           _ 0 1 (1 # 2) (7 # 10)).
  - vm_compute. reflexivity.
  - reflexivity.
  - reflexivity.
  - unfold Qle. simpl. lia.
Defined.

Lemma demo_matched_within_length :
  Forall (matched_within_length gt) [row 0 P1; row 0 P2].
Proof.
  repeat constructor; intros this_gt m gt0 Hg Hm H0;
    vm_compute in Hg; injection Hg as <-;
    vm_compute in Hm; injection Hm as <-;
    vm_compute in H0; injection H0 as <-;
    vm_compute; discriminate.
Defined.

(** C7 on the grid 0.5, 0.7. *)
Lemma robustness_bounded_witness :
  ∃ r, compute_tracking_metrics gt [row 0 P1; row 0 P2] [1 # 2; 7 # 10]%Q take_max_stiou
       = Ok r ∧
    Forall (λ x, (0 <= x)%Q ∧ (x <= 100)%Q) r ∧
    ∀ frame a f tidx,
      loc [row 0 P1; row 0 P2] (sort_idx [row 0 P1; row 0 P2]) = Ok frame →
      scoring_pass gt frame [1 # 2; 7 # 10]%Q = Ok a →
      winner_selection take_max_stiou gt frame [1 # 2; 7 # 10]%Q a = Ok f →
      tidx < length [1 # 2; 7 # 10]%Q →
      (np_sum (nth tidx (final_track_total_count f) []) == 0)%Q →
      r !! tidx = Some 0%Q.
Proof.
  eexists. split; [vm_compute; reflexivity|].
  apply (robustness_bounded (H:=collaborators) gt [row 0 P1; row 0 P2] [1 # 2; 7 # 10]%Q take_max_stiou).
  - exact demo_matched_within_length.
  - vm_compute. reflexivity.
Defined.

(** C8 on a video whose best-scored prediction also overlaps best. *)
Lemma modes_coincide_witness :
  compute_tracking_metrics gt [row 0 P4; row 0 P2] [1 # 2; 7 # 10]%Q take_max_score
  = compute_tracking_metrics gt [row 0 P4; row 0 P2] [1 # 2; 7 # 10]%Q take_max_stiou.
Proof.
  apply (modes_coincide (H:=collaborators) gt [row 0 P4; row 0 P2] [1 # 2; 7 # 10]%Q).
  intros g Hg. exists (row 0 P2). split; [right; left|].
  apply list_elem_of_singleton in Hg as ->. split; [reflexivity|].
  intros q Hq _. apply elem_of_cons in Hq as [->|Hq].
  - right. split; reflexivity.
  - apply list_elem_of_singleton in Hq as ->. by left.
Defined.

(** C9, as stated, fails: after [evaluate] the object holds one vector, of
    three values; the vector of the ten default thresholds is not stored. *)
Lemma evaluate_stores_reporting_grid_only :
  ∃ self', evaluate facade = Ok self' ∧
    ¬ ∃ tm k r10,
        tracking_metrics self' = Some tm ∧
        compute_tracking_metrics (ground_truth facade) (prediction facade)
          default_iou_thresholds (mode facade) = Ok r10 ∧
        (k, r10) ∈ tm.
Proof.
  eexists. split; [vm_compute; reflexivity|].
  intros (tm & k & r10 & Htm & Hr & Hin).
  apply compute_tracking_metrics_length in Hr.
  injection Htm as <-. apply list_elem_of_singleton in Hin.
  injection Hin as _ ->. discriminate.
Qed.

(** C10 on the grid 0.5, 0.7. *)
Lemma stiou_winner_threshold_independent_witness :
  ∃ frame a,
    loc [row 0 P1; row 0 P2] (sort_idx [row 0 P1; row 0 P2]) = Ok frame ∧
    scoring_pass gt frame [1 # 2; 7 # 10]%Q = Ok a ∧
    (∀ i, get2 (st_iou a) 0 i = get2 (st_iou a) 1 i) ∧
    (∀ g grp, get_group video_id frame (gt_video_id g) = Ok grp →
              max_idx take_max_stiou a 0 grp = max_idx take_max_stiou a 1 grp).
Proof.
  eexists _, _. split; [vm_compute; reflexivity|]. split; [vm_compute; reflexivity|].
  apply (stiou_winner_threshold_independent (H:=collaborators) gt [row 0 P1; row 0 P2] _
           [1 # 2; 7 # 10]%Q _ 0 1).
  - vm_compute. reflexivity.
  - vm_compute. reflexivity.
  - simpl. lia.
  - simpl. lia.
Defined.

End Instances.

(** * Further properties of the aggregator *)

Section Returns.
Context `{Collaborators, Argsort}.

Lemma scoring_check_intro ground_truth (prediction : list pred_row) :
  (∀ p, p ∈ prediction → ∃ oe, pred_entry ground_truth p = Ok oe) →
  scoring_check ground_truth prediction = Ok ().
Proof.
  intros Hall. unfold scoring_check.
  assert (forallb (λ p, match pred_entry ground_truth p with
                        | inr _ => true | inl _ => false end) prediction = true)
    as ->; [|done].
  apply forallb_forall. intros p Hp. apply list_elem_of_In in Hp.
  by destruct (Hall p Hp) as [oe ->].
Qed.

Lemma scoring_check_cases ground_truth (prediction : list pred_row) :
  scoring_check ground_truth prediction = Ok () ∨
  scoring_check ground_truth prediction = Raise IndexError.
Proof. unfold scoring_check. destruct (forallb _ _); auto. Qed.

Lemma pred_entry_answered ground_truth (p : pred_row) :
  answered ground_truth p → ∃ oe, pred_entry ground_truth p = Ok oe.
Proof.
  unfold answered, pred_entry. intros Hp.
  destruct (get_group _ _ _) as [|this_gt] eqn:Hg; [by eexists|].
  destruct (Hp this_gt eq_refl) as [Hs Hm].
  apply get_group_rows in Hg as (Hne & _ & _).
  destruct (spatio_temporal_iou _ _); [done|].
  destruct (spatio_temporal_iou_matches _ _); [done|].
  destruct this_gt; [done|]. by eexists.
Qed.

Lemma rows_of_elem_of (prediction : list pred_row) v :
  rows_of prediction v ≠ [] ↔ ∃ p, p ∈ prediction ∧ video_id p = v.
Proof.
  split.
  - intros Hne. destruct (rows_of prediction v) as [|p l] eqn:Hr; [done|].
    exists p. apply and_comm, (list_elem_of_filter (λ p, video_id p = v)).
    unfold rows_of in Hr. rewrite Hr. by left.
  - intros (p & Hp & Hv) Hr. apply rows_of_nil in Hr.
    by eapply Forall_forall in Hr.
Qed.

Lemma selection_check_intro ground_truth (prediction : list pred_row) :
  Forall (λ g, rows_of prediction (gt_video_id g) ≠ []) ground_truth →
  ∃ us, selection_check ground_truth prediction = Ok us.
Proof.
  intros Hall. destruct (selection_check ground_truth prediction) as [e|us] eqn:Hs;
    [|by eexists].
  apply selection_check_Raise in Hs as (g & Hg & _ & Hr).
  by eapply Forall_forall in Hall.
Qed.

(** The aggregator returns a value exactly when its two checks pass. *)
Lemma compute_tracking_metrics_Ok ground_truth (prediction : list pred_row) ths mode :
  prediction ≠ [] →
  (∃ r, compute_tracking_metrics ground_truth prediction ths mode = Ok r) ↔
  scoring_check ground_truth prediction = Ok () ∧
  Forall (λ g, rows_of prediction (gt_video_id g) ≠ []) ground_truth.
Proof.
  intros Hne. rewrite compute_tracking_metrics_spec by done. split.
  - intros [r Hr]. destruct (scoring_check _ _) as [|[]]; [discriminate|].
    destruct (selection_check _ _) as [|us] eqn:Hs; [discriminate|].
    split; [done|]. by eapply selection_check_Ok.
  - intros [-> Hall]. destruct (selection_check_intro _ _ Hall) as [us ->].
    by eexists.
Qed.

(** X1. Whatever the inputs, a result of the aggregator holds one value
    per threshold of the grid, in the order of the grid. *)
Theorem one_value_per_threshold (ground_truth : list gt_row)
    (prediction : list pred_row) (iou_thresholds : list Q) (mode : Mode) (r : list Q) :
  compute_tracking_metrics ground_truth prediction iou_thresholds mode = Ok r →
  length r = length iou_thresholds.
Proof. apply compute_tracking_metrics_length. Qed.

(** X2. The thresholds are evaluated independently: the value returned at
    a position of the grid is the value the aggregator returns when that
    threshold is the whole grid. *)
Theorem threshold_evaluated_alone (ground_truth : list gt_row)
    (prediction : list pred_row) (iou_thresholds : list Q) (mode : Mode)
    (r : list Q) (i : nat) (t : Q) :
  compute_tracking_metrics ground_truth prediction iou_thresholds mode = Ok r →
  iou_thresholds !! i = Some t →
  ∃ x, r !! i = Some x ∧
       compute_tracking_metrics ground_truth prediction [t] mode = Ok [x].
Proof.
  intros Hr Hi. destruct prediction as [|p l].
  - injection Hr as <-. exists 0%Q. split; [|done].
    apply lookup_replicate_2. by eapply lookup_lt_Some.
  - rewrite compute_tracking_metrics_spec in * by done.
    destruct (scoring_check _ _); [discriminate|].
    destruct (selection_check _ _); [discriminate|].
    injection Hr as <-. unfold robustness_vector.
    rewrite list_lookup_fmap, Hi. by eexists.
Qed.

(** X3. Whether the aggregator raises, and what, depends neither on the
    threshold grid nor on the mode. *)
Theorem exception_independent_of_grid_and_mode (ground_truth : list gt_row)
    (prediction : list pred_row) (ths ths' : list Q) (mode mode' : Mode) (e : exn) :
  compute_tracking_metrics ground_truth prediction ths mode = Raise e →
  compute_tracking_metrics ground_truth prediction ths' mode' = Raise e.
Proof.
  destruct prediction as [|p l]; [discriminate|].
  rewrite !compute_tracking_metrics_spec by done.
  destruct (scoring_check _ _); [done|].
  by destruct (selection_check _ _).
Qed.

(** X4. Without any ground truth the aggregator never raises and returns
    zeros: every prediction is skipped as a false positive. *)
Theorem no_ground_truth_zero_vector (prediction : list pred_row)
    (iou_thresholds : list Q) (mode : Mode) :
  compute_tracking_metrics [] prediction iou_thresholds mode
  = Ok (replicate (length iou_thresholds) 0%Q).
Proof.
  destruct prediction as [|p l]; [done|].
  rewrite compute_tracking_metrics_spec by done.
  rewrite scoring_check_intro.
  - cbn. f_equal. by apply const_fmap.
  - intros q _. exists None. by apply false_positive_entry.
Qed.

(** X5. When the two overlap functions answer for every prediction, the
    aggregator, given at least one prediction, returns a value exactly when
    every ground-truth row has a prediction for its video. *)
Theorem returns_iff_every_video_predicted (ground_truth : list gt_row)
    (prediction : list pred_row) (iou_thresholds : list Q) (mode : Mode) :
  prediction ≠ [] →
  Forall (answered ground_truth) prediction →
  (∃ r, compute_tracking_metrics ground_truth prediction iou_thresholds mode = Ok r) ↔
  Forall (λ g, ∃ p, p ∈ prediction ∧ video_id p = gt_video_id g) ground_truth.
Proof.
  intros Hne Hans. rewrite compute_tracking_metrics_Ok by done.
  rewrite scoring_check_intro.
  2:{ intros p Hp. apply pred_entry_answered. by eapply Forall_forall in Hans. }
  split.
  - intros [_ Hall]. eapply Forall_impl; [exact Hall|].
    intros g Hg. by apply rows_of_elem_of.
  - intros Hall. split; [done|]. eapply Forall_impl; [exact Hall|].
    intros g Hg. by apply rows_of_elem_of.
Qed.

(** X6. The order of the prediction frame matters only through ties: two
    frames that hold the same predictions, in any order, give the same
    result, provided no two predictions of one ground-truth video have the
    same score. *)
Theorem order_irrelevant_without_ties (ground_truth : list gt_row)
    (l l' : list pred_row) (iou_thresholds : list Q) (mode : Mode) :
  l ≡ₚ l' →
  (∀ g, g ∈ ground_truth → no_tie (rows_of l (gt_video_id g))) →
  compute_tracking_metrics ground_truth l iou_thresholds mode
  = compute_tracking_metrics ground_truth l' iou_thresholds mode.
Proof.
  intros Hperm Htie. destruct l as [|p l].
  { apply Permutation_nil_l in Hperm. by subst. }
  destruct l' as [|q l'].
  { by apply Permutation_nil_r in Hperm. }
  apply frames_agree; [done|done|by apply scoring_check_Permutation|].
  intros g Hg. split; [|by apply Htie]. unfold rows_of. by rewrite Hperm.
Qed.

End Returns.

Section Winners.
Context `{Collaborators, Argsort}.

Lemma get_group_elem_of {A} (key : A → Z) (df : list A) x :
  x ∈ df → ∃ grp, get_group key df (key x) = Ok grp.
Proof.
  intros Hx. destruct (get_group key df (key x)) as [e|grp] eqn:Hg; [|by eexists].
  apply get_group_Raise in Hg as [_ Hg].
  by apply (filter_nil_not_elem_of _ _ x) in Hg.
Qed.

Lemma pred_entry_with_ground_truth ground_truth (p : pred_row) g oe :
  g ∈ ground_truth → video_id p = gt_video_id g →
  pred_entry ground_truth p = Ok oe → ∃ e, oe = Some e.
Proof.
  intros Hg Hv. unfold pred_entry. rewrite Hv.
  destruct (get_group gt_video_id ground_truth (gt_video_id g)) as [e'|grp] eqn:Hgg.
  { destruct (get_group_elem_of gt_video_id ground_truth g Hg) as [grp' Hgrp'].
    rewrite Hgrp' in Hgg. discriminate. }
  destruct (first (spatio_temporal_iou _ _)); [discriminate|].
  destruct (first (spatio_temporal_iou_matches _ _)); [discriminate|].
  destruct (first (_ <$> grp)); [discriminate|].
  intros [= <-]. by eexists.
Qed.

(** A ground-truth row with predictions has a winner, a prediction of its
    video, and the cells picked for the row are those of the winner. *)
Lemma winner_entry_Some mode ground_truth (prediction : list pred_row) g :
  scoring_check ground_truth prediction = Ok () →
  g ∈ ground_truth → rows_of prediction (gt_video_id g) ≠ [] →
  ∃ p e, p ∈ prediction ∧ video_id p = gt_video_id g ∧
         pred_entry ground_truth p = Ok (Some e) ∧
         winner_entry mode ground_truth (rows_of (sorted prediction) (gt_video_id g))
         = Some e.
Proof.
  intros Hsc Hg Hne.
  set (R := rows_of (sorted prediction) (gt_video_id g)).
  assert (R ≠ []) as HR by (intros HR; by apply (proj1 (rows_of_sorted_nil _ _)) in HR).
  assert (argmax (key_of mode ground_truth <$> R) < length R) as Hk.
  { rewrite <- (length_fmap (key_of mode ground_truth)).
    apply argmax_lt_length. by destruct R. }
  destruct (lookup_lt_is_Some_2 _ _ Hk) as [p Hp].
  assert (p ∈ prediction ∧ video_id p = gt_video_id g) as [Hin Hv].
  { apply list_elem_of_lookup_2 in Hp. by apply elem_of_rows_of_sorted in Hp. }
  destruct (scoring_check_Ok _ _ p Hsc Hin) as [oe Hoe].
  destruct (pred_entry_with_ground_truth _ _ _ _ Hg Hv Hoe) as [e ->].
  exists p, e. repeat (split; [done|]).
  unfold winner_entry, winner. fold R. rewrite Hp. simpl.
  by apply pred_entry_entry_of.
Qed.

Lemma pred_entry_fully_matched thr ground_truth (p : pred_row) e :
  fully_matched thr ground_truth p →
  pred_entry ground_truth p = Ok (Some e) →
  Forall (λ v, (thr <= v)%Q) (e_matches e).*2 ∧
  Z.of_nat (length (e_matches e)) = e_length e ∧ (0 < e_length e)%Z.
Proof.
  unfold fully_matched, pred_entry. intros Hp.
  destruct (get_group _ _ _) as [|this_gt]; [discriminate|].
  destruct (first (spatio_temporal_iou _ _)) as [|s]; [discriminate|].
  destruct (first (spatio_temporal_iou_matches _ _)) as [|m] eqn:Hm; [discriminate|].
  destruct (first (_ <$> this_gt)) as [|gt0] eqn:Hg; [discriminate|].
  intros [= <-]. simpl. by eapply Hp.
Qed.

Lemma count_nonzero_all (thr : Q) (vs : list Q) :
  Forall (λ v, (thr <= v)%Q) vs →
  count_nonzero ((λ v, Qle_bool thr v) <$> vs) = length vs.
Proof.
  induction 1 as [|v vs Hv _ IH]; [done|].
  rewrite fmap_cons, count_nonzero_cons, IH.
  apply Qle_bool_iff in Hv. by rewrite Hv.
Qed.

Lemma np_sum_pos l : l ≠ [] → Forall (Qlt 0) l → (0 < np_sum l)%Q.
Proof.
  intros Hne Hall. destruct Hall as [|x l Hx Hl]; [done|]. simpl.
  assert (0 <= np_sum l)%Q; [|lra].
  apply np_sum_nonneg. eapply Forall_impl; [exact Hl|].
  intros y Hy. simpl in *. lra.
Qed.

(** X7. When every prediction matches every frame of the ground-truth
    track of its video with an IoU of at least the threshold, the value
    returned at that threshold is 100 (given some ground truth and some
    prediction). *)
Theorem full_match_gives_100 (ground_truth : list gt_row)
    (prediction : list pred_row) (iou_thresholds : list Q) (mode : Mode)
    (r : list Q) (i : nat) (thr : Q) :
  ground_truth ≠ [] → prediction ≠ [] →
  Forall (fully_matched thr ground_truth) prediction →
  compute_tracking_metrics ground_truth prediction iou_thresholds mode = Ok r →
  iou_thresholds !! i = Some thr →
  ∃ x, r !! i = Some x ∧ (x == 100)%Q.
Proof.
  intros Hgt Hne Hfull Hr Hi.
  rewrite compute_tracking_metrics_spec in Hr by done.
  destruct (scoring_check _ _) as [|[]] eqn:Hsc; [discriminate|].
  destruct (selection_check _ _) as [|us] eqn:Hsel; [discriminate|].
  injection Hr as <-. apply selection_check_Ok in Hsel.
  unfold robustness_vector. rewrite list_lookup_fmap, Hi. simpl.
  eexists. split; [done|].
  pose (w := λ g, winner_entry mode ground_truth
                    (rows_of (sorted prediction) (gt_video_id g))).
  change (robustness_of ((λ g, cell_acc thr (w g)) <$> ground_truth)
            ((λ g, cell_tot thr (w g)) <$> ground_truth) == 100)%Q.
  assert (∀ g, g ∈ ground_truth →
            cell_acc thr (w g) = cell_tot thr (w g) ∧ (0 < cell_tot thr (w g))%Q)
    as Hcells.
  { intros g Hg. eapply Forall_forall in Hsel as Hrows; [|exact Hg].
    destruct (winner_entry_Some mode _ _ _ Hsc Hg Hrows) as (p & e & Hp & _ & He & Hw).
    unfold w. rewrite Hw. eapply Forall_forall in Hfull; [|exact Hp].
    destruct (pred_entry_fully_matched _ _ _ _ Hfull He) as (Hall & Hlen & Hpos).
    simpl. unfold accurate. rewrite count_nonzero_all, length_fmap, Hlen by done.
    split; [done|]. change 0%Q with (inject_Z 0). by rewrite <- Zlt_Qlt. }
  assert ((λ g, cell_acc thr (w g)) <$> ground_truth
          = (λ g, cell_tot thr (w g)) <$> ground_truth) as ->.
  { apply list_fmap_ext. intros j g Hg. apply Hcells.
    by eapply list_elem_of_lookup_2. }
  assert (0 < np_sum ((λ g, cell_tot thr (w g)) <$> ground_truth))%Q as Hpos.
  { apply np_sum_pos; [by destruct ground_truth|].
    apply Forall_fmap, Forall_forall. intros g Hg. by apply Hcells. }
  unfold robustness_of. rewrite (proj2 (Qltb_lt _ _) Hpos).
  apply Qdiv_mult_l. lra.
Qed.

(** X8. In mode [take_max_stiou] the prediction picked for a video is a
    prediction of that video with the largest whole-track IoU; among
    several of them it is one with the largest score. *)
Theorem max_stiou_winner (ground_truth : list gt_row)
    (prediction frame : list pred_row) (iou_thresholds : list Q) (a : arrays)
    (tidx : nat) (g : gt_row) (grp : list (nat * pred_row)) :
  loc prediction (sort_idx prediction) = Ok frame →
  scoring_pass ground_truth frame iou_thresholds = Ok a →
  get_group video_id frame (gt_video_id g) = Ok grp →
  tidx < length iou_thresholds →
  ∃ p, frame !! max_idx take_max_stiou a tidx grp = Some p ∧
       p ∈ prediction ∧ video_id p = gt_video_id g ∧
       ∀ q, q ∈ prediction → video_id q = gt_video_id g →
         (whole_track_iou ground_truth q <= whole_track_iou ground_truth p)%Q ∧
         ((whole_track_iou ground_truth q == whole_track_iou ground_truth p)%Q →
          (score q <= score p)%Q).
Proof.
  rewrite loc_sort_idx. intros [= <-] Ha Hg Ht.
  rewrite scoring_pass_arrays, mapR_pred_entry in Ha.
  destruct (scoring_check ground_truth (sorted prediction)) as [|[]] eqn:Hsc;
    [discriminate|].
  injection Ha as <-.
  rewrite (scoring_check_Permutation _ _ _ (sorted_Permutation prediction)) in Hsc.
  destruct (lookup_lt_is_Some_2 _ _ Ht) as [thr Hthr].
  pose proof (get_group_rows _ _ _ _ Hg) as (Hne & _ & _).
  apply get_group_group_of in Hg as ->.
  rewrite (max_idx_keys _ _ _ _ _ _ _ Hthr).
  destruct (group_of_rows (sorted prediction) g) as [Hrows Hgrp].
  set (grp := group_of (sorted prediction) g) in *.
  set (R := rows_of (sorted prediction) (gt_video_id g)) in *.
  set (k := argmax (key_of take_max_stiou ground_truth <$> R)).
  assert (R ≠ []) as HR by (intros HR; rewrite HR in Hrows; by destruct grp).
  assert (first_max (key_of take_max_stiou ground_truth <$> R) k) as Hmax
    by (apply argmax_first_max; by destruct R).
  destruct Hmax as (x & Hx & Hle & Hlt).
  rewrite list_lookup_fmap in Hx.
  destruct (R !! k) as [p|] eqn:Hp; [|discriminate]. injection Hx as <-.
  assert (∀ q, q ∈ prediction → video_id q = gt_video_id g → q ∈ R) as HinR.
  { intros q Hq Hv. by apply elem_of_rows_of_sorted. }
  assert (∀ q, q ∈ R → q ∈ prediction ∧ video_id q = gt_video_id g) as HRin.
  { intros q Hq. by apply elem_of_rows_of_sorted in Hq. }
  assert (∀ q, q ∈ prediction →
            key_of take_max_stiou ground_truth q = whole_track_iou ground_truth q)
    as Hkey.
  { intros q Hq. destruct (scoring_check_Ok _ _ q Hsc Hq) as [oe Hoe].
    by eapply key_of_whole_track_iou. }
  destruct (HRin p) as [Hpin Hpv]; [by eapply list_elem_of_lookup_2|].
  exists p. split; [|split; [done|split; [done|]]].
  - rewrite <- Hrows in Hp. rewrite list_lookup_fmap in Hp.
    destruct (grp !! k) as [[i p']|] eqn:Hip; [|discriminate].
    injection Hp as ->. eapply Forall_lookup_1 in Hgrp; [|exact Hip].
    rewrite (nth_lookup_Some _ _ _ i) by by rewrite list_lookup_fmap, Hip.
    exact Hgrp.
  - intros q Hq Hv. rewrite <- !Hkey by done.
    pose proof (HinR q Hq Hv) as HqR. split.
    + rewrite Forall_fmap in Hle. by eapply Forall_forall in Hle.
    + intros Heq. apply list_elem_of_lookup_1 in HqR as [j Hj].
      destruct (decide (j < k)) as [Hjk|Hjk].
      * assert (key_of take_max_stiou ground_truth q
                < key_of take_max_stiou ground_truth p)%Q; [|lra].
        eapply Forall_forall in Hlt; [exact Hlt|].
        apply elem_of_take. exists j. split; [|done].
        by rewrite list_lookup_fmap, Hj.
      * eapply (rows_of_sorted_lookup prediction _ k j); [lia|done..].
Qed.

End Winners.

(** * The facade *)

Section Importing.
Context `{Collaborators, Argsort}.

Lemma filter_import_ground_truth (ground_truth : list ResponseTrack) k v :
  filter (λ ir : nat * gt_row, gt_video_id ir.2 = v)
    (enumerate_from k
       ((λ ig, {| gt_video_id := Z.of_nat ig.1; gt_response_track := ig.2 |})
          <$> enumerate_from k ground_truth))
  = if decide (Z.of_nat k ≤ v)%Z
    then match ground_truth !! (Z.to_nat v - k) with
         | Some t => [(Z.to_nat v, {| gt_video_id := v; gt_response_track := t |})]
         | None => []
         end
    else [].
Proof.
  revert k. induction ground_truth as [|t gts IH]; intros k.
  { simpl. by destruct (decide _). }
  cbn [enumerate_from fmap list_fmap]. rewrite filter_cons. cbn [fst snd gt_video_id].
  change (list_fmap _ _ ?f ?l) with (f <$> l). rewrite (IH (S k)).
  destruct (decide (Z.of_nat k = v)) as [<-|Hkv].
  - rewrite decide_False by lia. rewrite decide_True by lia.
    by rewrite Nat2Z.id, Nat.sub_diag.
  - destruct (decide (Z.of_nat (S k) ≤ v)%Z) as [Hle|Hle].
    + rewrite decide_True by lia.
      by replace (Z.to_nat v - k) with (S (Z.to_nat v - S k)) by lia.
    + by rewrite decide_False by lia.
Qed.

(** X9. After [_import_ground_truth] every video identifier from 0 to the
    number of tracks has exactly one ground-truth row, the track at that
    position of the input; any other identifier has none. *)
Theorem import_ground_truth_one_per_video (ground_truth : list ResponseTrack) (v : Z) :
  get_group gt_video_id (_import_ground_truth ground_truth) v
  = match (if decide (0 ≤ v)%Z then ground_truth !! Z.to_nat v else None) with
    | Some t => Ok [(Z.to_nat v, {| gt_video_id := v; gt_response_track := t |})]
    | None => Raise (KeyError v)
    end.
Proof.
  unfold get_group, _import_ground_truth.
  rewrite (filter_import_ground_truth ground_truth 0 v). rewrite Nat.sub_0_r.
  change (Z.of_nat 0) with 0%Z.
  destruct (decide (0 ≤ v)%Z); [|done]. by destruct (ground_truth !! Z.to_nat v).
Qed.

Lemma filter_imported k v (l : list ResponseTrack) :
  filter (λ p, video_id p = v) (imported k <$> l)
  = if decide (Z.of_nat k = v) then imported k <$> l else [].
Proof.
  induction l as [|t l IH]; [by destruct (decide _)|].
  rewrite fmap_cons, filter_cons, IH. cbn [imported video_id].
  by destruct (decide (Z.of_nat k = v)).
Qed.

Lemma rows_of_import_prediction_from (prediction : list (list ResponseTrack)) k v :
  filter (λ p, video_id p = v)
    (mjoin ((λ ip : nat * list ResponseTrack, imported ip.1 <$> ip.2)
              <$> enumerate_from k prediction))
  = if decide (Z.of_nat k ≤ v)%Z
    then match prediction !! (Z.to_nat v - k) with
         | Some l => imported (Z.to_nat v) <$> l
         | None => []
         end
    else [].
Proof.
  revert k. induction prediction as [|l ps IH]; intros k.
  { simpl. by destruct (decide _). }
  cbn [enumerate_from]. rewrite fmap_cons.
  change (mjoin (?x :: ?l)) with (x ++ mjoin l). cbn [fst snd].
  rewrite filter_app, filter_imported, (IH (S k)).
  destruct (decide (Z.of_nat k = v)) as [<-|Hkv].
  - rewrite decide_False by lia. rewrite decide_True by lia.
    by rewrite Nat2Z.id, Nat.sub_diag, app_nil_r.
  - destruct (decide (Z.of_nat (S k) ≤ v)%Z) as [Hle|Hle].
    + rewrite decide_True by lia.
      by replace (Z.to_nat v - k) with (S (Z.to_nat v - S k)) by lia.
    + by rewrite decide_False by lia.
Qed.

Lemma rows_of_import_prediction (prediction : list (list ResponseTrack)) (v : Z) :
  rows_of (_import_prediction prediction) v
  = match (if decide (0 ≤ v)%Z then prediction !! Z.to_nat v else None) with
    | Some l => imported (Z.to_nat v) <$> l
    | None => []
    end.
Proof.
  pose proof (rows_of_import_prediction_from prediction 0 v) as Hrows.
  rewrite Nat.sub_0_r in Hrows. change (Z.of_nat 0) with 0%Z in Hrows.
  etransitivity; [exact Hrows|]. by destruct (decide (0 ≤ v)%Z).
Qed.

(** X10. After [_import_prediction] the rows of video [i] are the tracks
    of the [i]-th list of the input, in their order, each with its own
    score; a negative identifier, or one past the input, has no row. *)
Theorem import_prediction_rows (prediction : list (list ResponseTrack)) :
  (∀ i : nat, rows_of (_import_prediction prediction) (Z.of_nat i)
              = imported i <$> default [] (prediction !! i)) ∧
  (∀ v, (v < 0)%Z → rows_of (_import_prediction prediction) v = []).
Proof.
  split.
  - intros i. rewrite rows_of_import_prediction, decide_True, Nat2Z.id by lia.
    by destruct (prediction !! i).
  - intros v Hv. by rewrite rows_of_import_prediction, decide_False by lia.
Qed.

Lemma import_ground_truth_lookup (ground_truth : list ResponseTrack) g :
  g ∈ _import_ground_truth ground_truth ↔
  ∃ i t, ground_truth !! i = Some t ∧
         g = {| gt_video_id := Z.of_nat i; gt_response_track := t |}.
Proof.
  unfold _import_ground_truth. rewrite list_elem_of_fmap. split.
  - intros ([i t] & -> & Hin). apply elem_of_enumerate_from in Hin as [_ Hin].
    rewrite Nat.sub_0_r in Hin. by exists i, t.
  - intros (i & t & Hi & ->). exists (i, t). split; [done|].
    apply list_elem_of_lookup. exists i.
    by rewrite enumerate_from_lookup, Hi.
Qed.

Lemma evaluate_Ok (self : TrackingMetrics) :
  (∃ self', evaluate self = Ok self') ↔
  ∃ r, compute_tracking_metrics (ground_truth self) (prediction self)
         iou_thresholds (mode self) = Ok r.
Proof.
  unfold evaluate. destruct (compute_tracking_metrics _ _ _ _) as [e|r].
  - split; intros [? ?]; discriminate.
  - split; intros _; by eexists.
Qed.

(** X11. Through the facade: when the overlap functions answer and there
    is at least one prediction, [evaluate] returns exactly when every
    ground-truth track has a non-empty list of predictions at its position. *)
Theorem evaluate_returns_iff_aligned (tracks : list ResponseTrack)
    (lists : list (list ResponseTrack)) (m : Mode) (ignore : bool) :
  _import_prediction lists ≠ [] →
  Forall (answered (_import_ground_truth tracks)) (_import_prediction lists) →
  (∃ self', evaluate (__init__ tracks lists m ignore) = Ok self') ↔
  ∀ i, i < length tracks → ∃ l, lists !! i = Some l ∧ l ≠ [].
Proof.
  intros Hne Hans. rewrite evaluate_Ok. cbn [__init__ ground_truth prediction mode].
  rewrite compute_tracking_metrics_Ok by done.
  rewrite scoring_check_intro.
  2:{ intros p Hp. apply pred_entry_answered. by eapply Forall_forall in Hans. }
  rewrite Forall_forall. split.
  - intros [_ Hall] i Hi.
    destruct (lookup_lt_is_Some_2 _ _ Hi) as [t Ht].
    specialize (Hall {| gt_video_id := Z.of_nat i; gt_response_track := t |}).
    rewrite rows_of_import_prediction in Hall. cbn [gt_video_id] in Hall.
    rewrite decide_True, Nat2Z.id in Hall by lia.
    destruct (lists !! i) as [l|].
    + exists l. split; [done|]. intros ->. apply Hall; [|done].
      apply import_ground_truth_lookup. by exists i, t.
    + exfalso. apply Hall; [|done]. apply import_ground_truth_lookup. by exists i, t.
  - intros Hall. split; [done|]. intros g Hg.
    apply import_ground_truth_lookup in Hg as (i & t & Hi & ->).
    rewrite rows_of_import_prediction. cbn [gt_video_id].
    rewrite decide_True, Nat2Z.id by lia.
    destruct (Hall i) as (l & -> & Hl); [by eapply lookup_lt_Some|].
    by destruct l.
Qed.

End Importing.

Section FirstMissing.
Context `{Collaborators, Argsort}.

(** X12. With at least one prediction and overlap functions that answer,
    the aggregator raises the [KeyError] of the first ground-truth row, in
    row order, whose video has no prediction. *)
Theorem key_error_names_first_missing_video (l1 l2 : list gt_row) (g : gt_row)
    (prediction : list pred_row) (iou_thresholds : list Q) (mode : Mode) :
  prediction ≠ [] →
  Forall (answered (l1 ++ g :: l2)) prediction →
  Forall (λ g', ∃ p, p ∈ prediction ∧ video_id p = gt_video_id g') l1 →
  Forall (λ p, video_id p ≠ gt_video_id g) prediction →
  compute_tracking_metrics (l1 ++ g :: l2) prediction iou_thresholds mode
  = Raise (KeyError (gt_video_id g)).
Proof.
  intros Hne Hans Hl1 Hg. rewrite compute_tracking_metrics_spec by done.
  rewrite scoring_check_intro.
  2:{ intros p Hp. apply pred_entry_answered. by eapply Forall_forall in Hans. }
  rewrite bind_Ok.
  assert (selection_check (l1 ++ g :: l2) prediction
          = Raise (KeyError (gt_video_id g))) as ->; [|done].
  unfold selection_check. clear Hans.
  induction Hl1 as [|g' l1 Hg' _ IH]; cbn [app mapR].
  - apply rows_of_nil in Hg. by rewrite Hg.
  - apply rows_of_elem_of in Hg'.
    destruct (rows_of prediction (gt_video_id g')); [done|]. by rewrite IH.
Qed.

End FirstMissing.

Section Report.
Context `{Collaborators, Argsort}.
Variable PRINT_FORMAT : string → string → string.
Variable format_2f : Q → string.

Lemma dict_get_set {V} k (v : V) d : dict_get k (dict_set k v d) = Some v.
Proof.
  induction d as [|[k' v'] d IH]; simpl.
  - by rewrite String.eqb_refl.
  - destruct (String.eqb k k') eqn:Hk; simpl; by rewrite Hk.
Qed.

Lemma dict_set_Forall {V} (P : V → Prop) k v (d : list (string * V)) :
  P v → Forall (λ kv, P kv.2) d → Forall (λ kv, P kv.2) (dict_set k v d).
Proof.
  intros Hv. induction 1 as [|[k' v'] d Hkv Hd IH]; simpl.
  - constructor; [done|constructor].
  - destruct (String.eqb k k'); by constructor.
Qed.

(** The dictionary built by [get_metrics], without its loops. *)
Lemma get_metrics_unfold (self : TrackingMetrics) :
  let name := (metric_uuid ++ " " ++ "% recovery" ++ " " ++ suffix self)%string in
  let key_50 := PRINT_FORMAT name ("@ IoU=" ++ format_2f (1 # 2)) in
  let key_avg := PRINT_FORMAT name
                   ("@ IoU=" ++ format_2f (1 # 2) ++ ":" ++ format_2f (95 # 100)) in
  match compute_tracking_metrics (ground_truth self) (prediction self)
          [1 # 2; 3 # 4; 95 # 100]%Q (mode self) with
  | inl e => get_metrics PRINT_FORMAT format_2f self = inl (AggregatorError e)
  | inr r =>
      ∃ self' x y z,
        r = [x; y; z] ∧ evaluate self = Ok self' ∧
        get_metrics PRINT_FORMAT format_2f self
        = inr (self', dict_set key_50 x
                        (if ignore_iou_averaging self then []
                         else [(key_avg, np_mean r)]))
  end.
Proof.
  intros name key_50 key_avg. unfold get_metrics, evaluate, iou_thresholds.
  destruct (compute_tracking_metrics _ _ _ _) as [e|r] eqn:Hr; [done|].
  apply compute_tracking_metrics_length in Hr.
  destruct r as [|x [|y [|z [|]]]]; try discriminate.
  eexists _, x, y, z. split; [done|]. split; [reflexivity|].
  cbn. by destruct (ignore_iou_averaging self).
Qed.

(** X13. [get_metrics] raises exactly what the aggregator raises on the
    three thresholds 0.5, 0.75, 0.95, and nothing else.  Otherwise the
    dictionary it returns holds the value at threshold 0.5 under the key of
    that threshold; it is the only entry when averaging is ignored, and is
    preceded by the mean of the three values otherwise.  The values at 0.75
    and 0.95 are not reported on their own. *)
Theorem get_metrics_report (self : TrackingMetrics) :
  let name := (metric_uuid ++ " " ++ "% recovery" ++ " " ++ suffix self)%string in
  let key_50 := PRINT_FORMAT name ("@ IoU=" ++ format_2f (1 # 2)) in
  let key_avg := PRINT_FORMAT name
                   ("@ IoU=" ++ format_2f (1 # 2) ++ ":" ++ format_2f (95 # 100)) in
  match compute_tracking_metrics (ground_truth self) (prediction self)
          [1 # 2; 3 # 4; 95 # 100]%Q (mode self) with
  | inl e => get_metrics PRINT_FORMAT format_2f self = inl (AggregatorError e)
  | inr r =>
      ∃ self' metrics x,
        get_metrics PRINT_FORMAT format_2f self = inr (self', metrics) ∧
        evaluate self = Ok self' ∧
        r !! 0 = Some x ∧
        dict_get key_50 metrics = Some x ∧
        (ignore_iou_averaging self = true → metrics = [(key_50, x)]) ∧
        (ignore_iou_averaging self = false → key_50 ≠ key_avg →
         metrics = [(key_avg, np_mean r); (key_50, x)])
  end.
Proof.
  intros name key_50 key_avg. pose proof (get_metrics_unfold self) as Hget.
  cbv zeta in Hget. fold name key_50 key_avg in Hget.
  destruct (compute_tracking_metrics _ _ _ _) as [e|r]; [done|].
  destruct Hget as (self' & x & y & z & -> & Hev & Hget).
  eexists self', _, x. split; [exact Hget|]. split; [done|]. split; [done|].
  split; [apply dict_get_set|]. split.
  - by intros ->.
  - intros -> Hkeys. simpl.
    by rewrite (proj2 (String.eqb_neq key_50 key_avg) Hkeys).
Qed.

Lemma robustness_values_bounded ground_truth (prediction : list pred_row)
    ths mode r :
  Forall (matched_within_length ground_truth) prediction →
  compute_tracking_metrics ground_truth prediction ths mode = Ok r →
  Forall (λ x, (0 <= x)%Q ∧ (x <= 100)%Q) r.
Proof.
  intros Hall Hr. destruct prediction as [|p l].
  { injection Hr as <-. apply Forall_replicate. split; [apply Qle_refl|done]. }
  rewrite compute_tracking_metrics_spec in Hr by done.
  destruct (scoring_check _ _); [discriminate|].
  destruct (selection_check _ _); [discriminate|].
  injection Hr as <-. unfold robustness_vector.
  apply Forall_fmap, Forall_forall. intros thr _. simpl.
  apply robustness_of_bounds.
  - apply np_sum_nonneg, Forall_fmap, Forall_forall. intros g _.
    apply cell_acc_nonneg.
  - apply np_sum_mono, Forall2_fmap, Forall_Forall2_diag, Forall_forall.
    intros g _. by apply winner_cells_bounded.
Qed.

(** X14. When no prediction has more matched frames than the ground-truth
    track of its video is long, every value of the dictionary returned by
    [get_metrics], the mean included, lies in [[0, 100]]. *)
Theorem get_metrics_values_bounded (self self' : TrackingMetrics)
    (metrics : list (string * Q)) :
  Forall (matched_within_length (ground_truth self)) (prediction self) →
  get_metrics PRINT_FORMAT format_2f self = inr (self', metrics) →
  Forall (λ kv, (0 <= kv.2)%Q ∧ (kv.2 <= 100)%Q) metrics.
Proof.
  intros Hall Hget. pose proof (get_metrics_unfold self) as Hunf.
  cbv zeta in Hunf.
  destruct (compute_tracking_metrics _ _ _ _) as [e|r] eqn:Hr.
  { rewrite Hunf in Hget. discriminate. }
  destruct Hunf as (s & x & y & z & -> & _ & Hunf).
  rewrite Hunf in Hget. injection Hget as _ <-.
  apply (robustness_values_bounded _ _ _ _ _ Hall) in Hr.
  inversion Hr as [|? ? [Hx0 Hx1] Hr']; subst.
  inversion Hr' as [|? ? [Hy0 Hy1] Hr'']; subst.
  inversion Hr'' as [|? ? [Hz0 Hz1] _]; subst.
  apply (dict_set_Forall (λ v, (0 <= v)%Q ∧ (v <= 100)%Q)); [done|].
  destruct (ignore_iou_averaging self); [constructor|].
  repeat constructor; unfold np_mean; simpl;
    change (inject_Z (Z.of_nat 3)) with 3%Q.
  - apply Qle_shift_div_l; [reflexivity|]. lra.
  - apply Qle_shift_div_r; [reflexivity|]. lra.
Qed.

End Report.

Section Outscored.
Context `{Collaborators, Argsort}.

(** In mode [take_max_score] the winner among the rows of a video holds
    the largest score. *)
Lemma winner_score_max ground_truth (R : list pred_row) :
  R ≠ [] →
  ∃ w, winner take_max_score ground_truth R = Some w ∧ w ∈ R ∧
       Forall (λ z, (score z <= score w)%Q) R.
Proof.
  intros HR. unfold winner, key_of.
  destruct (argmax_first_max (score <$> R)) as (x & Hx & Hle & _); [by destruct R|].
  rewrite list_lookup_fmap in Hx.
  destruct (R !! argmax (score <$> R)) as [w|] eqn:Hw; [|discriminate].
  injection Hx as <-. exists w. split; [done|].
  split; [by eapply list_elem_of_lookup_2|]. by rewrite Forall_fmap in Hle.
Qed.

(** X15. In mode [take_max_score] only the best-scored prediction of a
    video counts: when the best-scored prediction of every ground-truth video
    is unique, a prediction that another prediction of the same video
    outscores (and for which the overlap functions answer) can be removed
    without changing the result. *)
Theorem outscored_prediction_irrelevant (ground_truth : list gt_row)
    (l1 l2 : list pred_row) (p q : pred_row) (iou_thresholds : list Q) :
  p ∈ l1 ++ l2 → video_id p = video_id q → (score q < score p)%Q →
  answered ground_truth q →
  (∀ g, g ∈ ground_truth → unique_best (rows_of (l1 ++ l2) (gt_video_id g))) →
  compute_tracking_metrics ground_truth (l1 ++ q :: l2) iou_thresholds take_max_score
  = compute_tracking_metrics ground_truth (l1 ++ l2) iou_thresholds take_max_score.
Proof.
  intros Hp Hv Hlt Hq Hbest.
  assert (l1 ++ l2 ≠ []) as Hne by (intros Hnil; rewrite Hnil in Hp; by apply elem_of_nil in Hp).
  rewrite !compute_tracking_metrics_spec by (done || by destruct l1).
  assert (scoring_check ground_truth (l1 ++ q :: l2)
          = scoring_check ground_truth (l1 ++ l2)) as ->.
  { unfold scoring_check. rewrite !forallb_app. cbn [forallb].
    by destruct (pred_entry_answered _ _ Hq) as [oe ->]. }
  assert (∀ v x, x ∈ rows_of (l1 ++ q :: l2) v ↔
                 (x ∈ rows_of (l1 ++ l2) v ∨ (x = q ∧ video_id q = v))) as Hin.
  { intros v x. unfold rows_of.
    rewrite !(list_elem_of_filter (λ y, video_id y = v)), !elem_of_app, elem_of_cons.
    split; [intros [Hx [?|[->|?]]]|intros [[Hx [?|?]]|[-> Hx]]]; tauto. }
  assert (∀ v, video_id q = v → p ∈ rows_of (l1 ++ l2) v) as Hpin.
  { intros v <-. by apply (list_elem_of_filter (λ x, video_id x = video_id q)). }
  rewrite (selection_check_ext ground_truth (l1 ++ q :: l2) (l1 ++ l2)).
  2:{ intros g _. split; intros Hnil.
      - apply elem_of_nil_inv. intros x Hx.
        assert (x ∈ rows_of (l1 ++ q :: l2) (gt_video_id g)) as Hx'
          by (apply Hin; by left).
        rewrite Hnil in Hx'. by apply elem_of_nil in Hx'.
      - apply elem_of_nil_inv. intros x [Hx|[-> Hx]]%Hin.
        + rewrite Hnil in Hx. by apply elem_of_nil in Hx.
        + apply Hpin in Hx. rewrite Hnil in Hx. by apply elem_of_nil in Hx. }
  rewrite (robustness_vector_winners take_max_score ground_truth
             (l1 ++ q :: l2) (l1 ++ l2)); [done|].
  intros g Hg. specialize (Hbest g Hg).
  set (v := gt_video_id g) in *.
  set (R' := rows_of (sorted (l1 ++ q :: l2)) v).
  set (R := rows_of (sorted (l1 ++ l2)) v).
  assert (∀ x, x ∈ R ↔ x ∈ rows_of (l1 ++ l2) v) as HR
    by (intros x; unfold R; by rewrite rows_of_sorted_Permutation).
  assert (∀ x, x ∈ R' ↔ x ∈ rows_of (l1 ++ q :: l2) v) as HR'
    by (intros x; unfold R'; by rewrite rows_of_sorted_Permutation).
  destruct (decide (R = [])) as [HRnil|HRne].
  { assert (R' = []) as ->; [|by rewrite HRnil].
    apply elem_of_nil_inv. intros x [Hx|[-> Hx]]%HR'%Hin.
    - apply HR in Hx. rewrite HRnil in Hx. by apply elem_of_nil in Hx.
    - apply Hpin, HR in Hx. rewrite HRnil in Hx. by apply elem_of_nil in Hx. }
  assert (R' ≠ []) as HRne'.
  { intros HRnil. destruct R as [|x R0] eqn:HeqR; [done|].
    assert (x ∈ R') as Hx by (apply HR', Hin; left; apply HR; by left).
    rewrite HRnil in Hx. by apply elem_of_nil in Hx. }
  destruct (winner_score_max ground_truth R HRne) as (w & Hw & HwR & Hwmax).
  destruct (winner_score_max ground_truth R' HRne') as (w' & Hw' & HwR' & Hwmax').
  unfold winner_entry. rewrite Hw, Hw'. cbn [mbind option_bind]. f_equal.
  assert (w' ∈ rows_of (l1 ++ l2) v) as Hw'in.
  { apply HR', Hin in HwR' as [?|[-> Hqv]]; [done|]. exfalso.
    assert (score p <= score q)%Q; [|lra].
    eapply Forall_forall in Hwmax'; [exact Hwmax'|].
    apply HR', Hin. left. by apply Hpin. }
  apply Hbest; [done|by apply HR|..].
  - apply Forall_forall. intros z Hz. eapply Forall_forall in Hwmax'; [exact Hwmax'|].
    apply HR', Hin. by left.
  - apply Forall_forall. intros z Hz. eapply Forall_forall in Hwmax; [exact Hwmax|].
    by apply HR.
Qed.

End Outscored.

(** * The further properties on the concrete instance

    As above: the tracks of [Demo], sorted by the insertion sort. *)

Section MoreInstances.
Import Demo DemoReport Sorts.

Lemma demo_answered (ground_truth : list gt_row) (p : pred_row) :
  answered ground_truth p.
Proof.
  intros this_gt Hg. apply get_group_rows in Hg as (Hne & _ & _).
  destruct this_gt; [done|]. split; discriminate.
Qed.

Lemma demo_fully_matched :
  Forall (fully_matched (1 # 2) gt) [row 0 P2; row 0 P3].
Proof.
  constructor; [|constructor; [|constructor]];
    intros this_gt m gt0 Hg Hm H0;
    vm_compute in Hg; injection Hg as <-;
    vm_compute in Hm; injection Hm as <-;
    vm_compute in H0; injection H0 as <-;
    (split; [|split; reflexivity]);
    repeat (constructor; [unfold Qle; simpl; lia|]); constructor.
Qed.

(** X1 on the grid 0.5, 0.7. *)
Lemma one_value_per_threshold_witness :
  ∃ r, compute_tracking_metrics gt [row 0 P1; row 0 P2] [1 # 2; 7 # 10]%Q take_max_score
       = Ok r ∧ length r = length [1 # 2; 7 # 10]%Q.
Proof.
  eexists. split; [vm_compute; reflexivity|].
  apply (one_value_per_threshold (H:=collaborators) gt [row 0 P1; row 0 P2]
           [1 # 2; 7 # 10]%Q take_max_score).
  vm_compute. reflexivity.
Defined.

(** X2 on the second threshold of the grid 0.5, 0.7. *)
Lemma threshold_evaluated_alone_witness :
  ∃ r, compute_tracking_metrics gt [row 0 P1; row 0 P2] [1 # 2; 7 # 10]%Q take_max_stiou
       = Ok r ∧
    ∃ x, r !! 1 = Some x ∧
         compute_tracking_metrics gt [row 0 P1; row 0 P2] [7 # 10]%Q take_max_stiou
         = Ok [x].
Proof.
  eexists. split; [vm_compute; reflexivity|].
  apply (threshold_evaluated_alone (H:=collaborators) gt [row 0 P1; row 0 P2]
           [1 # 2; 7 # 10]%Q take_max_stiou _ 1 (7 # 10)).
  - vm_compute. reflexivity.
  - reflexivity.
Defined.

(** X3 on a frame whose only prediction belongs to another video. *)
Lemma exception_independent_of_grid_and_mode_witness :
  compute_tracking_metrics gt [row 1 P2] [3 # 4; 95 # 100]%Q take_max_score
  = Raise (KeyError 0).
Proof.
  apply (exception_independent_of_grid_and_mode (H:=collaborators) gt [row 1 P2]
           [1 # 2]%Q [3 # 4; 95 # 100]%Q take_max_stiou take_max_score).
  vm_compute. reflexivity.
Defined.

(** X5 on one video with two predictions. *)
Lemma returns_iff_every_video_predicted_witness :
  (∃ r, compute_tracking_metrics gt [row 0 P1; row 0 P2] [1 # 2]%Q take_max_score
        = Ok r) ↔
  Forall (λ g, ∃ p, p ∈ [row 0 P1; row 0 P2] ∧ video_id p = gt_video_id g) gt.
Proof.
  apply (returns_iff_every_video_predicted (H:=collaborators) gt
           [row 0 P1; row 0 P2] [1 # 2]%Q take_max_score).
  - discriminate.
  - apply Forall_forall. intros p _. apply demo_answered.
Defined.

(** X6 on a frame with two predictions of one video, in both orders. *)
Lemma order_irrelevant_without_ties_witness :
  compute_tracking_metrics gt [row 0 P1; row 0 P4; row 1 P2] [1 # 2]%Q take_max_stiou
  = compute_tracking_metrics gt [row 0 P4; row 0 P1; row 1 P2] [1 # 2]%Q take_max_stiou.
Proof.
  apply (order_irrelevant_without_ties (H:=collaborators) gt
           [row 0 P1; row 0 P4; row 1 P2] [row 0 P4; row 0 P1; row 1 P2]).
  - apply Permutation_swap.
  - intros g _ x y Hx Hy Hxy. unfold rows_of in Hx, Hy.
    apply list_elem_of_filter in Hx as [_ Hx], Hy as [_ Hy].
    repeat (apply elem_of_cons in Hx as [->|Hx]);
      repeat (apply elem_of_cons in Hy as [->|Hy]);
      try reflexivity;
      try (by apply elem_of_nil in Hx); try (by apply elem_of_nil in Hy);
      revert Hxy; unfold Qeq; simpl; lia.
Defined.

(** X7 on predictions that match all 10 frames at IoU 0.8. *)
Lemma full_match_gives_100_witness :
  ∃ r, compute_tracking_metrics gt [row 0 P2; row 0 P3] [1 # 2; 7 # 10]%Q take_max_score
       = Ok r ∧
    ∃ x, r !! 0 = Some x ∧ (x == 100)%Q.
Proof.
  eexists. split; [vm_compute; reflexivity|].
  apply (full_match_gives_100 (H:=collaborators) gt [row 0 P2; row 0 P3]
           [1 # 2; 7 # 10]%Q take_max_score _ 0 (1 # 2)).
  - discriminate.
  - discriminate.
  - exact demo_fully_matched.
  - vm_compute. reflexivity.
  - reflexivity.
Defined.

(** X8 on one video with two predictions. *)
Lemma max_stiou_winner_witness :
  ∃ frame a grp,
    loc [row 0 P1; row 0 P2] (sort_idx [row 0 P1; row 0 P2]) = Ok frame ∧
    scoring_pass gt frame [1 # 2]%Q = Ok a ∧
    get_group video_id frame (gt_video_id g0) = Ok grp ∧
    ∃ p, frame !! max_idx take_max_stiou a 0 grp = Some p ∧
         p ∈ [row 0 P1; row 0 P2] ∧ video_id p = gt_video_id g0 ∧
         ∀ q, q ∈ [row 0 P1; row 0 P2] → video_id q = gt_video_id g0 →
           (whole_track_iou gt q <= whole_track_iou gt p)%Q ∧
           ((whole_track_iou gt q == whole_track_iou gt p)%Q →
            (score q <= score p)%Q).
Proof.
  eexists _, _, _. split; [vm_compute; reflexivity|].
  split; [vm_compute; reflexivity|]. split; [vm_compute; reflexivity|].
  apply (max_stiou_winner (H:=collaborators) gt [row 0 P1; row 0 P2] _ [1 # 2]%Q _ 0 g0).
  - vm_compute. reflexivity.
  - vm_compute. reflexivity.
  - vm_compute. reflexivity.
  - simpl. lia.
Defined.

(** X11 on one track with two predictions. *)
Lemma evaluate_returns_iff_aligned_witness :
  (∃ self', evaluate (__init__ [G] [[P1; P2]] take_max_score false) = Ok self') ↔
  ∀ i, i < length [G] → ∃ l, [[P1; P2]] !! i = Some l ∧ l ≠ [].
Proof.
  apply (evaluate_returns_iff_aligned (H:=collaborators) [G] [[P1; P2]]
           take_max_score false).
  - discriminate.
  - apply Forall_forall. intros p _. apply demo_answered.
Defined.

(** X12 on two ground-truth tracks, the second without prediction. *)
Lemma key_error_names_first_missing_video_witness :
  compute_tracking_metrics
    ([g0] ++ (@Build_gt_row collaborators 1 G) :: [])
    [row 0 P1] [1 # 2]%Q take_max_score
  = Raise (KeyError 1).
Proof.
  apply (key_error_names_first_missing_video (H:=collaborators) [g0] []
           (@Build_gt_row collaborators 1 G) [row 0 P1]
           [1 # 2]%Q take_max_score).
  - discriminate.
  - apply Forall_forall. intros p _. apply demo_answered.
  - repeat constructor. exists (row 0 P1). split; [left|reflexivity].
  - repeat constructor. simpl. discriminate.
Defined.

(** X15 on a video with a second, outscored prediction. *)
Lemma outscored_prediction_irrelevant_witness :
  compute_tracking_metrics gt ([row 0 P1] ++ row 0 P4 :: []) [1 # 2; 7 # 10]%Q
    take_max_score
  = compute_tracking_metrics gt ([row 0 P1] ++ []) [1 # 2; 7 # 10]%Q take_max_score.
Proof.
  apply (outscored_prediction_irrelevant (H:=collaborators) gt [row 0 P1] []
           (row 0 P1) (row 0 P4) [1 # 2; 7 # 10]%Q).
  - left.
  - reflexivity.
  - reflexivity.
  - apply demo_answered.
  - intros g _ x y Hx Hy _ _. unfold rows_of in Hx, Hy.
    apply list_elem_of_filter in Hx as [_ Hx], Hy as [_ Hy].
    apply list_elem_of_singleton in Hx, Hy. congruence.
Defined.

(** X14 on the concrete facade. *)
Lemma get_metrics_values_bounded_witness :
  ∃ self' metrics,
    get_metrics print_format two_decimals facade = inr (self', metrics) ∧
    Forall (λ kv, (0 <= kv.2)%Q ∧ (kv.2 <= 100)%Q) metrics.
Proof.
  eexists _, _. split; [vm_compute; reflexivity|].
  eapply (get_metrics_values_bounded (H:=collaborators) print_format two_decimals
            facade).
  - exact demo_matched_within_length.
  - vm_compute. reflexivity.
Defined.

End MoreInstances.
